(** * The wpilibc logging pipeline: [Logger], [LogLocation] and [ErrorCodes]

    A shallow embedding of
    - [wpilibc/wpilibC++/src/Logger.cpp] and [include/Logger.h],
    - [wpilibc/wpilibC++/src/LogLocation.cpp] and [include/LogLocation.h],
    - [hal/lib/Athena/cpp/ErrorCodes.cpp] and [hal/include/HAL/cpp/ErrorCodes.h],
    followed by the properties of the dispatcher ([Logger::Log]), of the two
    formatters and of the level registry.

    Conventions.  A [std::string] is a list of characters; an [int] is a [Z]
    (no arithmetic is done on levels and codes, so no wrap-around occurs); a
    [std::map] is a [gmap]; the member functions of the [Logger] singleton
    take the object's state and return the new one. *)

From Stdlib Require Import ZArith Ascii String List Lia DecimalString DecimalPos Sorted.
From stdpp Require Import gmap list.

Local Open Scope Z_scope.

(** ** Strings *)

Module Str.

(** [std::string]: a sequence of [char]. *)
Abbreviation t := (list ascii).

Definition of_bytes (bs : list Byte.byte) : t := List.map ascii_of_byte bs.
Definition to_bytes (s : t) : list Byte.byte := List.map byte_of_ascii s.

Declare Scope str_scope.
Delimit Scope str_scope with str.
String Notation t of_bytes to_bytes : str_scope.

Definition backslash : ascii := ascii_of_nat 92.
Definition comma : ascii := ascii_of_nat 44.
Definition semicolon : ascii := ascii_of_nat 59.
Definition newline : ascii := ascii_of_nat 10.
Definition NUL : ascii := ascii_of_nat 0.

(** [std::to_string(int)] and [operator<<(int)]: the decimal numeral. *)
Definition to_string (n : Z) : t :=
  list_ascii_of_string (NilZero.string_of_int (Z.to_int n)).

(** Does [s] begin with [pat]?  ([std::string::compare] at one position.) *)
Fixpoint starts_with (pat s : t) : bool :=
  match pat, s with
  | [], _ => true
  | _ :: _, [] => false
  | p :: pat', c :: s' => Ascii.eqb p c && starts_with pat' s'
  end.

(** Lowest offset at which [pat] occurs in [s]. *)
Fixpoint find_first (pat s : t) : option nat :=
  if starts_with pat s then Some 0%nat
  else match s with
       | [] => None
       | _ :: s' => option_map S (find_first pat s')
       end.

(** [s.find(pat, pos)]: the lowest index [>= pos] at which [pat] occurs,
    [None] for [npos]. *)
Definition find (s pat : t) (pos : nat) : option nat :=
  if (pos <=? length s)%nat
  then option_map (Nat.add pos) (find_first pat (drop pos s))
  else None.

(** Highest offset at which [pat] occurs in [s]. *)
Fixpoint find_last (pat s : t) : option nat :=
  match s with
  | [] => if starts_with pat [] then Some 0%nat else None
  | _ :: s' =>
      match find_last pat s' with
      | Some i => Some (S i)
      | None => if starts_with pat s then Some 0%nat else None
      end
  end.

(** [s.rfind(pat)]. *)
Definition rfind (s pat : t) : option nat := find_last pat s.

(** [s.replace(pos, len, r)], for [pos <= s.size()]. *)
Definition replace (s : t) (pos len : nat) (r : t) : t :=
  take pos s ++ r ++ drop (pos + len) s.

(** [s.c_str()] read by a [%s] conversion or by the [std::string]
    constructor: the characters before the first NUL. *)
Fixpoint c_str (s : t) : t :=
  match s with
  | [] => []
  | c :: s' => if Ascii.eqb c NUL then [] else c :: c_str s'
  end.

(** [result.pop_back()]. *)
Definition pop_back (s : t) : t := removelast s.

End Str.

Import Str.
Local Open Scope str_scope.

(** ** [Logger::FindAndReplace]

    The loop of the source, [for (i = 0; (i = source.find(find, i)) != npos;)
    { source.replace(i, find.length(), replace); i += replace.length(); }],
    one iteration per unit of fuel.  [None] means that the fuel ran out before
    the loop left. *)
Fixpoint FindAndReplace_loop (fuel : nat) (source find replace : Str.t) (i : nat)
  : option Str.t :=
  match fuel with
  | O => None
  | S fuel' =>
      match Str.find source find i with
      | None => Some source
      | Some j =>
          FindAndReplace_loop fuel'
            (Str.replace source j (length find) replace) find replace
            (j + length replace)%nat
      end
  end.

(** What one left-to-right pass leaves: at a position where [find] occurs,
    [replace] is emitted and the occurrence is skipped ([skip] counts the
    characters of the occurrence still to pass); elsewhere the character is
    kept. *)
Fixpoint replace_scan (find replace : Str.t) (skip : nat) (s : Str.t) : Str.t :=
  match s with
  | [] => []
  | c :: s' =>
      match skip with
      | S k => replace_scan find replace k s'
      | O =>
          if starts_with find s
          then replace ++ replace_scan find replace (length find - 1) s'
          else c :: replace_scan find replace 0 s'
      end
  end.

(** The value [source] holds when [FindAndReplace] returns.  Every unit of
    fuel but the last pays for one occurrence of [find], so [S (length
    source)] is enough whenever [find] is not empty
    ([FindAndReplace_loop_returns] below); with an empty [find] the loop of the
    source never leaves ([FindAndReplace_loop_empty_find]), and
    [FormatParseable] never passes one. *)
Definition FindAndReplace (source find replace : Str.t) : Str.t :=
  match FindAndReplace_loop (S (length source)) source find replace 0 with
  | Some s => s
  | None => source
  end.

(** The three statements that open the loop body of
    [Logger::FormatParseable]: backslashes first, then commas, then
    semicolons. *)
Definition escape_component (str : Str.t) : Str.t :=
  let str := FindAndReplace str "\" "\\" in
  let str := FindAndReplace str "," "\," in
  FindAndReplace str ";" "\;".

(** The reader's side, which the repository does not contain: the three
    substitutions undone, the last one first.  It is written with the
    source's own [FindAndReplace], [find] and [replace] exchanged. *)
Definition unescape_component (str : Str.t) : Str.t :=
  let str := FindAndReplace str "\;" ";" in
  let str := FindAndReplace str "\," "," in
  FindAndReplace str "\\" "\".

(** ** C strings and [std::atoi] *)

(** A [const char *] that is not null: the address it holds and the
    characters found there before the terminating NUL. *)
Record cstring := CString { c_addr : Z; c_chars : Str.t }.

(** [const char *]; [None] is [nullptr]. *)
Abbreviation char_ptr := (option cstring).

(** The pointer value, as [std::less<const char *>] compares it. *)
Definition ptr_value (p : char_ptr) : Z :=
  match p with
  | Some s => c_addr s
  | None => 0
  end.

Definition INT_MIN : Z := - 2 ^ 31.
Definition INT_MAX : Z := 2 ^ 31 - 1.

(** [isspace] in the C locale. *)
Definition isspace (c : ascii) : bool :=
  let n := nat_of_ascii c in
  (n =? 32)%nat || ((9 <=? n)%nat && (n <=? 13)%nat).

Definition isdigit (c : ascii) : bool :=
  let n := nat_of_ascii c in (48 <=? n)%nat && (n <=? 57)%nat.

Fixpoint skip_spaces (s : Str.t) : Str.t :=
  match s with
  | c :: s' => if isspace c then skip_spaces s' else s
  | [] => []
  end.

(** The value of the longest run of decimal digits that opens [s]. *)
Fixpoint digits_value (acc : Z) (s : Str.t) : Z :=
  match s with
  | c :: s' =>
      if isdigit c
      then digits_value (10 * acc + (Z.of_nat (nat_of_ascii c) - 48)) s'
      else acc
  | [] => acc
  end.

(** The number [atoi] reads: white space, an optional sign, digits; [0] when
    no digit follows. *)
Definition atoi_value (s : Str.t) : Z :=
  match skip_spaces s with
  | c :: s' =>
      if Ascii.eqb c "-" then - digits_value 0 s'
      else if Ascii.eqb c "+" then digits_value 0 s'
      else digits_value 0 (c :: s')
  | [] => 0
  end.

(** [std::atoi].  When the number read is no [int] the C standard leaves the
    result open; [overflow] is what the C library at hand returns then. *)
Definition atoi (overflow : Z -> Z) (s : Str.t) : Z :=
  let v := atoi_value s in
  if (INT_MIN <=? v) && (v <=? INT_MAX) then v else overflow v.

(** ** [ErrorCodes] *)

Module ErrorCodes.

(** [m_codes] maps a code to its message, [m_names] maps a name to its code.
    The key type of [m_names] is [const char *]: names are looked up by the
    pointer, not by the characters. *)
Record t := Make {
  m_codes : gmap Z Str.t;
  m_names : gmap Z Z
}.

Definition Get (ec : t) (code : Z) : Str.t :=
  match m_codes ec !! code with
  | Some msg => msg
  | None => []
  end.

Definition GetCode (ec : t) (name : char_ptr) : Z :=
  match m_names ec !! ptr_value name with
  | Some code => code
  | None => 0
  end.

Definition Add (ec : t) (code : Z) (msg : Str.t) (name : char_ptr) : bool * t :=
  match m_codes ec !! code with
  | Some _ => (false, ec)
  | None =>
      (true,
       {| m_codes := <[code := msg]> (m_codes ec);
          m_names := match name with
                     | Some _ => <[ptr_value name := code]> (m_names ec)
                     | None => m_names ec
                     end |})
  end.

(** The entries of the constructor, in its order: [CODE(name, code, msg)]. *)
Definition table : list (Str.t * Z * Str.t) :=
  [ ("ModuleIndexOutOfRange", -1, "Allocating module that is out of range or not found");
    ("ChannelIndexOutOfRange", -1, "Allocating channel that is out of range");
    ("NotAllocated", -2, "Attempting to free unallocated resource");
    ("ResourceAlreadyAllocated", -3, "Attempted to reuse an allocated resource");
    ("NoAvailableResources", -4, "No available resources to allocate");
    ("NullParameter", -5, "A pointer parameter to a method is nullptr");
    ("Timeout", -6, "A timeout has been exceeded");
    ("CompassManufacturerError", -7, "Compass manufacturer doesn't match HiTechnic");
    ("CompassTypeError", -8, "Compass type doesn't match expected type for HiTechnic compass");
    ("IncompatibleMode", -9, "The object is in an incompatible mode");
    ("AnalogTriggerLimitOrderError", -10, "AnalogTrigger limits error.  Lower limit > Upper Limit");
    ("AnalogTriggerPulseOutputError", -11, "Attempted to read AnalogTrigger pulse output.");
    ("TaskError", -12, "Task can't be started");
    ("TaskIDError", -13, "Task error: Invalid ID.");
    ("TaskDeletedError", -14, "Task error: Task already deleted.");
    ("TaskOptionsError", -15, "Task error: Invalid options.");
    ("TaskMemoryError", -16, "Task can't be started due to insufficient memory.");
    ("TaskPriorityError", -17, "Task error: Invalid priority [1-255].");
    ("DriveUninitialized", -18, "RobotDrive not initialized for the C interface");
    ("CompressorNonMatching", -19, "Compressor slot/channel doesn't match previous instance");
    ("CompressorAlreadyDefined", -20, "Creating a second compressor instance");
    ("CompressorUndefined", -21, "Using compressor functions without defining compressor");
    ("InconsistentArrayValueAdded", -22, "When packing data into an array to the dashboard, not all values added were of the same type.");
    ("MismatchedComplexTypeClose", -23, "When packing data to the dashboard, a Close for a complex type was called without a matching Open.");
    ("DashboardDataOverflow", -24, "When packing data to the dashboard, too much data was packed and the buffer overflowed.");
    ("DashboardDataCollision", -25, "The same buffer was used for packing data and for printing.");
    ("EnhancedIOMissing", -26, "IO is not attached or Enhanced IO is not enabled.");
    ("LineNotOutput", -27, "Cannot SetDigitalOutput for a line not configured for output.");
    ("ParameterOutOfRange", -28, "A parameter is out of range.");
    ("SPIClockRateTooLow", -29, "SPI clock rate was below the minimum supported");
    ("JaguarVersionError", -30, "Jaguar firmware version error");
    ("JaguarMessageNotFound", -31, "Jaguar message not found");
    ("NetworkTablesReadError", -40, "Error reading NetworkTables socket");
    ("NetworkTablesBufferFull", -41, "Buffer full writing to NetworkTables socket");
    ("NetworkTablesWrongType", -42, "The wrong type was read from the NetworkTables entry");
    ("NetworkTablesCorrupt", -43, "NetworkTables data stream is corrupt");
    ("SmartDashboardMissingKey", -43, "SmartDashboard data does not exist");
    ("CommandIllegalUse", -50, "Illegal use of Command");
    ("UnsupportedInSimulation", -80, "Unsupported in simulation");
    ("SampleRateTooHigh", 1, "Analog module sample rate is too high");
    ("VoltageOutOfRange", 2, "Voltage to convert to raw value is out of range [-10; 10]");
    ("CompressorTaskError", 3, "Compressor task won't start");
    ("LoopTimingError", 4, "Digital module loop timing is not the expected value");
    ("NonBinaryDigitalValue", 5, "Digital output value is not 0 or 1");
    ("IncorrectBatteryChannel", 6, "Battery measurement channel is not correct value");
    ("BadJoystickIndex", 7, "Joystick index is out of range, should be 0-3");
    ("BadJoystickAxis", 8, "Joystick axis or POV is out of range");
    ("InvalidMotorIndex", 9, "Motor index is out of range, should be 0-3");
    ("DriverStationTaskError", 10, "Driver Station task won't start");
    ("EnhancedIOPWMPeriodOutOfRange", 11, "Driver Station Enhanced IO PWM Output period out of range.");
    ("SPIWriteNoMOSI", 12, "Cannot write to SPI port with no MOSI output");
    ("SPIReadNoMISO", 13, "Cannot read from SPI port with no MISO input");
    ("SPIReadNoData", 14, "No data available to read from SPI");
    ("IncompatibleState", 15, "Incompatible State: The operation cannot be completed")
  ].

(** The string literal [#name] of the [CODE] macro, which the linker put at
    address [literal name]. *)
Definition name_literal (literal : Str.t -> Z) (name : Str.t) : char_ptr :=
  Some {| c_addr := literal name; c_chars := name |}.

(** [ErrorCodes::ErrorCodes()]. *)
Definition ctor (literal : Str.t -> Z) : t :=
  fold_left
    (fun ec '(name, code, msg) => snd (Add ec code msg (name_literal literal name)))
    table {| m_codes := ∅; m_names := ∅ |}.

End ErrorCodes.

(** ** [LogLocation] *)

Module LogLocation.

Record t := Make { file : Str.t; func : Str.t; line : Z }.

(** [operator std::string()]: [file:func:line]. *)
Definition to_std_string (l : t) : Str.t :=
  file l ++ ":" ++ func l ++ ":" ++ to_string (line l).

(** [ShortFilename]: from the first ["wpilib"] on, else from the last
    ["src"] on, else all of [name]. *)
Definition ShortFilename (name : Str.t) : Str.t :=
  match Str.find name "wpilib" 0 with
  | Some start => drop start name
  | None =>
      match Str.rfind name "src" with
      | Some start => drop start name
      | None => name
      end
  end.

End LogLocation.

(** ** [Logger] *)

Module Logger.

(** [struct LogMessage].  [timestamp] is a [steady_clock::time_point], held
    as its count of nanoseconds since the clock's epoch. *)
Record LogMessage := {
  level : Z;
  code : Z;
  details : Str.t;
  location : LogLocation.t;
  timestamp : Z;
  stacktrace : Str.t;
  originatingObject : Str.t
}.

(** [enum NILevel] and [enum Level]. *)
Definition kNIWarning : Z := 2.
Definition kNIError : Z := 3.
Definition kDEBUG : Z := 1.
Definition kWARNING : Z := 2.
Definition kERROR : Z := 3.

(** [FormatLogFunc], a [std::function] from messages to strings.  In this
    module a formatter is a function of the message: a callable that keeps no
    state between its calls.  Callables with state are the subject of the
    module [Stateful] below, where [ProcessLog] and [ProcessCommon] each call
    the formatter and pass its state on; [Stateful.lift] shows this module to
    be its case without state. *)
Abbreviation FormatLogFunc := (LogMessage -> Str.t).

(** One call of [HALSendError], with the characters its pointer arguments
    lead to.  The fourth argument, the location, is left out: [msg.location]
    reaches the call through [LogLocation::operator const char *], which
    returns the [c_str()] of a temporary string that is destroyed before the
    call is made, so the source does not determine the characters
    [HALSendError] finds there. *)
Record HALError := {
  isError : bool;
  errorCode : Z;
  errorDetails : Str.t;
  callStack : Str.t
}.

(** The members of the singleton that [Log] and the setters touch, and the
    two things written outside it: the characters sent to [std::cout] and the
    calls made to [HALSendError], oldest first.  (The listeners, the mutexes
    and the flushing thread are not modelled.) *)
Record t := {
  m_levels : gmap Z Str.t;
  m_levelFormats : gmap Z FormatLogFunc;
  m_usestdout : bool;
  m_useNI : bool;
  m_pending : Str.t;
  cout : Str.t;
  HAL_sent : list HALError
}.

(** The object as its member initializers leave it. *)
Definition init : t :=
  {| m_levels := <[1 := "DEBUG"]> (<[2 := "WARNING"]> (<[3 := "ERROR"]> ∅));
     m_levelFormats := ∅;
     m_usestdout := true;
     m_useNI := true;
     m_pending := [];
     cout := [];
     HAL_sent := [] |}.

Definition set_levels (st : t) (lv : gmap Z Str.t) : t :=
  {| m_levels := lv; m_levelFormats := m_levelFormats st;
     m_usestdout := m_usestdout st; m_useNI := m_useNI st;
     m_pending := m_pending st; cout := cout st; HAL_sent := HAL_sent st |}.

Definition set_pending (st : t) (p : Str.t) : t :=
  {| m_levels := m_levels st; m_levelFormats := m_levelFormats st;
     m_usestdout := m_usestdout st; m_useNI := m_useNI st;
     m_pending := p; cout := cout st; HAL_sent := HAL_sent st |}.

Definition set_cout (st : t) (o : Str.t) : t :=
  {| m_levels := m_levels st; m_levelFormats := m_levelFormats st;
     m_usestdout := m_usestdout st; m_useNI := m_useNI st;
     m_pending := m_pending st; cout := o; HAL_sent := HAL_sent st |}.

Definition set_HAL_sent (st : t) (h : list HALError) : t :=
  {| m_levels := m_levels st; m_levelFormats := m_levelFormats st;
     m_usestdout := m_usestdout st; m_useNI := m_useNI st;
     m_pending := m_pending st; cout := cout st; HAL_sent := h |}.

(** [m[k]] of a [std::map] whose mapped type is [std::string]: the value
    found, or an empty string that is inserted under [k] first. *)
Definition map_index (m : gmap Z Str.t) (k : Z) : Str.t * gmap Z Str.t :=
  match m !! k with
  | Some v => (v, m)
  | None => ([], <[k := []]> m)
  end.

(** What a call receives from outside the source: the reading of
    [steady_clock::now()], the text [GetStackTrace(depth)] returns (Utility.h),
    and the C library's answer where [atoi] leaves the range of [int]. *)
Record Env := {
  now : Z;
  GetStackTrace : Z -> Str.t;
  atoi_overflow : Z -> Z
}.

(** [duration_cast<milliseconds>(timestamp.time_since_epoch()).count()]:
    the division rounds towards zero. *)
Definition milliseconds (ts : Z) : Z := Z.quot ts 1000000.

Definition kBufLen : nat := 512.

(** [FormatDefault]: [snprintf] into [kBufLen] bytes keeps at most
    [kBufLen - 1] characters; each [%s] reads its argument up to a NUL. *)
Definition FormatDefault (st : t) (msg : LogMessage) : Str.t * t :=
  let (name, lv) := map_index (m_levels st) (level msg) in
  (take (kBufLen - 1)
     ("[" ++ c_str name ++ "]: From "
      ++ c_str (LogLocation.ShortFilename
                  (LogLocation.to_std_string (location msg)))
      ++ ": " ++ c_str (details msg) ++ [newline]),
   set_levels st lv).

(** The [components] vector of [FormatParseable], given the level name. *)
Definition components (ec : ErrorCodes.t) (name : Str.t) (msg : LogMessage)
  : list Str.t :=
  [ to_string (level msg); name;
    to_string (code msg); ErrorCodes.Get ec (code msg);
    LogLocation.to_std_string (location msg);
    to_string (milliseconds (timestamp msg));
    stacktrace msg; originatingObject msg;
    details msg ].

(** [FormatParseable]: every component escaped and followed by a comma, the
    last comma popped, [";\n"] appended. *)
Definition FormatParseable (ec : ErrorCodes.t) (st : t) (msg : LogMessage)
  : Str.t * t :=
  let (name, lv) := map_index (m_levels st) (level msg) in
  let result :=
    fold_left (fun result str => result ++ (escape_component str ++ ","))
      (components ec name msg) [] in
  let result := pop_back result in
  (result ++ [semicolon; newline], set_levels st lv).

(** [ProcessNILog]: one call of [HALSendError]; what the call finds behind
    its location argument is left open (see [HALError]). *)
Definition ProcessNILog (st : t) (msg : LogMessage) : t :=
  set_HAL_sent st
    (HAL_sent st ++
     [ {| isError := level msg =? kNIError;
          errorCode := code msg;
          errorDetails := c_str (details msg);
          callStack := c_str (stacktrace msg) |} ]).

(** [ProcessLog]. *)
Definition ProcessLog (st : t) (msg : LogMessage) : t :=
  let (formatted, st) :=
    match m_levelFormats st !! level msg with
    | Some f => (f msg, st)
    | None => FormatDefault st msg
    end in
  set_cout st (cout st ++ formatted).

(** [ProcessCommon]; [Log] calls it with the default [formatted = ""]. *)
Definition ProcessCommon (ec : ErrorCodes.t) (st : t) (msg : LogMessage)
    (formatted : Str.t) : t :=
  let (formatted, st) :=
    if (length formatted =? 0)%nat then
      match m_levelFormats st !! level msg with
      | Some f => (f msg, st)
      | None => FormatParseable ec st msg
      end
    else (formatted, st) in
  set_pending st (m_pending st ++ formatted).

(** The message [Log] builds by its braced initializer. *)
Definition make_message (env : Env) (level code : Z) (details : Str.t)
    (location : LogLocation.t) (originator : Str.t) (depth : Z) : LogMessage :=
  {| level := level; code := code; details := details; location := location;
     timestamp := now env; stacktrace := GetStackTrace env depth;
     originatingObject := originator |}.

(** What [Log] does with the message once built. *)
Definition dispatch (ec : ErrorCodes.t) (st : t) (msg : LogMessage) : t :=
  let st :=
    if (level msg =? kNIWarning) || (level msg =? kNIError)
    then (if m_useNI st then ProcessNILog st msg else st)
    else (if m_usestdout st then ProcessLog st msg else st) in
  ProcessCommon ec st msg [].

(** [Log(int level, int code, details, location, originator, depth)]. *)
Definition Log_code (env : Env) (ec : ErrorCodes.t) (st : t) (level code : Z)
    (details : Str.t) (location : LogLocation.t) (originator : Str.t)
    (depth : Z) : t :=
  dispatch ec st (make_message env level code details location originator depth).

(** [Log(int level, const char *codename, details, location, originator)]. *)
Definition Log (env : Env) (ec : ErrorCodes.t) (st : t) (level : Z)
    (codename : char_ptr) (details : Str.t) (location : LogLocation.t)
    (originator : Str.t) : t :=
  match codename with
  | None => Log_code env ec st level 0 details location originator 3
  | Some s =>
      let code := atoi (atoi_overflow env) (c_chars s) in
      if negb (code =? 0)
      then Log_code env ec st level code details location originator 3
      else Log_code env ec st level (ErrorCodes.GetCode ec codename)
             details location originator 3
  end.

Definition SetStdoutEnable (st : t) (enabled : bool) : t :=
  {| m_levels := m_levels st; m_levelFormats := m_levelFormats st;
     m_usestdout := enabled; m_useNI := m_useNI st;
     m_pending := m_pending st; cout := cout st; HAL_sent := HAL_sent st |}.

Definition SetNIEnable (st : t) (enabled : bool) : t :=
  {| m_levels := m_levels st; m_levelFormats := m_levelFormats st;
     m_usestdout := m_usestdout st; m_useNI := enabled;
     m_pending := m_pending st; cout := cout st; HAL_sent := HAL_sent st |}.

(** [AddLevel]: [m_levels[level] = name]. *)
Definition AddLevel (st : t) (level : Z) (name : Str.t) : t :=
  set_levels st (<[level := name]> (m_levels st)).

(** [AddFormatter]: [m_levelFormats[level] = formatter]. *)
Definition AddFormatter (st : t) (level : Z) (formatter : FormatLogFunc) : t :=
  {| m_levels := m_levels st;
     m_levelFormats := <[level := formatter]> (m_levelFormats st);
     m_usestdout := m_usestdout st; m_useNI := m_useNI st;
     m_pending := m_pending st; cout := cout st; HAL_sent := HAL_sent st |}.

(** *** What the statements below speak of *)

(** The name under which [m_levels] holds [level]; empty when it holds
    none. *)
Definition level_name (st : t) (level : Z) : Str.t :=
  match m_levels st !! level with
  | Some name => name
  | None => []
  end.

(** The nine fields of the parseable record, before escaping. *)
Definition fields (ec : ErrorCodes.t) (st : t) (msg : LogMessage) : list Str.t :=
  [ to_string (level msg);
    level_name st (level msg);
    to_string (code msg);
    ErrorCodes.Get ec (code msg);
    LogLocation.file (location msg) ++ ":"
      ++ LogLocation.func (location msg) ++ ":"
      ++ to_string (LogLocation.line (location msg));
    to_string (milliseconds (timestamp msg));
    stacktrace msg;
    originatingObject msg;
    details msg ].

(** Strings joined with commas. *)
Fixpoint join (l : list Str.t) : Str.t :=
  match l with
  | [] => []
  | [s] => s
  | s :: l' => s ++ "," ++ join l'
  end.

(** The line of the default (console) formatter for a level named [name]. *)
Definition default_line (name : Str.t) (msg : LogMessage) : Str.t :=
  take 511
    ("[" ++ c_str name ++ "]: From "
     ++ c_str (LogLocation.ShortFilename
                 (LogLocation.to_std_string (location msg)))
     ++ ": " ++ c_str (details msg) ++ [newline]).

(** Is [level] one of the two [NILevel] values? *)
Definition is_NILevel (level : Z) : bool :=
  (level =? kNIWarning) || (level =? kNIError).

(** The parseable record of [msg]: the escaped fields, commas between them,
    a semicolon and a newline at the end. *)
Definition parseable_record (ec : ErrorCodes.t) (st : t) (msg : LogMessage)
  : Str.t :=
  join (List.map escape_component (fields ec st msg)) ++ [semicolon; newline].

(** The line for the pending buffer: the formatter registered for the level
    of [msg] if there is one, the parseable record otherwise. *)
Definition buffer_entry (ec : ErrorCodes.t) (st : t) (msg : LogMessage) : Str.t :=
  match m_levelFormats st !! level msg with
  | Some f => f msg
  | None => parseable_record ec st msg
  end.

(** The line for [std::cout]: the formatter registered for the level of [msg]
    if there is one, the default line otherwise. *)
Definition console_entry (st : t) (msg : LogMessage) : Str.t :=
  match m_levelFormats st !! level msg with
  | Some f => f msg
  | None => default_line (level_name st (level msg)) msg
  end.

(** The call of [HALSendError] that [ProcessNILog] makes for [msg], as far
    as the source determines it: all arguments but the location. *)
Definition HAL_call (msg : LogMessage) : HALError :=
  {| isError := level msg =? kNIError;
     errorCode := code msg;
     errorDetails := c_str (details msg);
     callStack := c_str (stacktrace msg) |}.

(** The levels [Log] leaves: untouched under a registered formatter; else
    what [m_levels[level]] leaves. *)
Definition levels_after (st : t) (msg : LogMessage) : gmap Z Str.t :=
  match m_levelFormats st !! level msg with
  | Some _ => m_levels st
  | None => snd (map_index (m_levels st) (level msg))
  end.

End Logger.

(** ** A reader of the parseable record

    The repository holds no reader of its own records.  This one follows the
    format: a backslash takes the next character with it, a comma not taken
    so ends a field, a semicolon not taken so ends the record.  It returns the
    fields, still escaped, and what follows the semicolon. *)
Fixpoint split_record (s field : Str.t) : option (list Str.t * Str.t) :=
  match s with
  | [] => None
  | c :: s' =>
      if Ascii.eqb c backslash then
        match s' with
        | d :: s'' => split_record s'' (field ++ [c; d])
        | [] => None
        end
      else if Ascii.eqb c comma then
        match split_record s' [] with
        | Some (fs, rest) => Some (field :: fs, rest)
        | None => None
        end
      else if Ascii.eqb c semicolon then Some ([field], s')
      else split_record s' (field ++ [c])
  end.

(** The fields of the first record of [s], unescaped, and the rest of [s]. *)
Definition read_record (s : Str.t) : option (list Str.t * Str.t) :=
  match split_record s [] with
  | Some (fs, rest) => Some (List.map unescape_component fs, rest)
  | None => None
  end.

(** What [escape_component] makes of one character. *)
Definition escape_char (c : ascii) : Str.t :=
  if Ascii.eqb c backslash || Ascii.eqb c comma || Ascii.eqb c semicolon
  then [backslash; c] else [c].

(** ** Sequences of calls *)

(** The calls a program makes on the two singletons, with what each call
    receives from outside.  [SetStdoutEnable] is left to the caller of
    [run]. *)
Inductive call :=
| CallLog (env : Logger.Env) (level : Z) (codename : char_ptr)
    (details : Str.t) (location : LogLocation.t) (originator : Str.t)
| CallLogCode (env : Logger.Env) (level code : Z)
    (details : Str.t) (location : LogLocation.t) (originator : Str.t)
    (depth : Z)
| CallAddLevel (level : Z) (name : Str.t)
| CallAddFormatter (level : Z) (formatter : Logger.FormatLogFunc)
| CallSetNIEnable (enabled : bool)
| CallErrorCodesAdd (code : Z) (msg : Str.t) (name : char_ptr).

Definition step (s : ErrorCodes.t * Logger.t) (c : call)
  : ErrorCodes.t * Logger.t :=
  let (ec, st) := s in
  match c with
  | CallLog env level codename details location originator =>
      (ec, Logger.Log env ec st level codename details location originator)
  | CallLogCode env level code details location originator depth =>
      (ec, Logger.Log_code env ec st level code details location originator depth)
  | CallAddLevel level name => (ec, Logger.AddLevel st level name)
  | CallAddFormatter level f => (ec, Logger.AddFormatter st level f)
  | CallSetNIEnable b => (ec, Logger.SetNIEnable st b)
  | CallErrorCodesAdd code msg name => (snd (ErrorCodes.Add ec code msg name), st)
  end.

Definition run (calls : list call) (s : ErrorCodes.t * Logger.t)
  : ErrorCodes.t * Logger.t :=
  fold_left step calls s.

(** Two states of the logger that differ at most in [m_usestdout] and in
    what was written to [std::cout]. *)
Definition agree_off_stdout (st1 st2 : Logger.t) : Prop :=
  Logger.m_levels st1 = Logger.m_levels st2
  /\ Logger.m_levelFormats st1 = Logger.m_levelFormats st2
  /\ Logger.m_useNI st1 = Logger.m_useNI st2
  /\ Logger.m_pending st1 = Logger.m_pending st2
  /\ Logger.HAL_sent st1 = Logger.HAL_sent st2.

(** ** Sample data *)

Module Sample.

(** A clock reading, a stack trace, and a C library whose [atoi] saturates. *)
Definition env : Logger.Env :=
  {| Logger.now := 1234567890;
     Logger.GetStackTrace := fun _ => "at f";
     Logger.atoi_overflow := fun v => if v <? 0 then INT_MIN else INT_MAX |}.

Definition location : LogLocation.t :=
  {| LogLocation.file := "a.cpp"; LogLocation.func := "f";
     LogLocation.line := 10 |}.

(** A placement of the string literals: equal literals share an address,
    different ones do not. *)
Definition literal (s : Str.t) : Z :=
  fold_left (fun a c => 256 * a + Z.of_nat (nat_of_ascii c) + 1) s 0.

Definition codes : ErrorCodes.t := ErrorCodes.ctor literal.

(** The pointer a caller passes when it writes the literal [s]. *)
Definition name (s : Str.t) : cstring :=
  {| c_addr := literal s; c_chars := s |}.

(** A formatter that prints the code only. *)
Definition code_only : Logger.FormatLogFunc :=
  fun msg => to_string (Logger.code msg) ++ [newline].

End Sample.

(** ** Sequences of [ErrorCodes::Add] *)

(** One call of [Add]: the code, the message, the name. *)
Abbreviation add_call := (Z * Str.t * char_ptr)%type.

Definition add_code (c : add_call) : Z := fst (fst c).
Definition add_msg (c : add_call) : Str.t := snd (fst c).
Definition add_name (c : add_call) : char_ptr := snd c.

(** The registry after the calls of [calls], made in order on [ec]. *)
Definition add_all (calls : list add_call) (ec : ErrorCodes.t) : ErrorCodes.t :=
  fold_left
    (fun ec c => snd (ErrorCodes.Add ec (add_code c) (add_msg c) (add_name c)))
    calls ec.

Definition empty_codes : ErrorCodes.t :=
  {| ErrorCodes.m_codes := ∅; ErrorCodes.m_names := ∅ |}.

(** The calls the constructor makes. *)
Definition ctor_calls (literal : Str.t -> Z) : list add_call :=
  List.map (fun '(name, code, msg) =>
              (code, msg, ErrorCodes.name_literal literal name))
    ErrorCodes.table.

(** The message of the first call of [calls] made with [code]. *)
Fixpoint first_msg (calls : list add_call) (code : Z) : option Str.t :=
  match calls with
  | [] => None
  | c :: calls' =>
      if add_code c =? code then Some (add_msg c) else first_msg calls' code
  end.

(** Every name of the registry leads to a code that has a message. *)
Definition names_have_codes (ec : ErrorCodes.t) : Prop :=
  forall p code,
    ErrorCodes.m_names ec !! p = Some code ->
    is_Some (ErrorCodes.m_codes ec !! code).

(** The two names of the constructor's table that come with a code an
    earlier entry has taken. *)
Definition shadowed_names : list Str.t :=
  ["ChannelIndexOutOfRange"; "SmartDashboardMissingKey"].

(** The test behind [ctor_registers]: the entry at [i] finds its code taken
    exactly if its name is one of [shadowed_names], and otherwise its message
    is the first one of the table for its code. *)
Definition ctor_entry_ok (literal : Str.t -> Z) (i : nat) : bool :=
  match ErrorCodes.table !! i with
  | Some (name, code, msg) =>
      let shadowed := bool_decide (name ∈ shadowed_names) in
      match first_msg (take i (ctor_calls literal)) code with
      | Some _ => shadowed
      | None =>
          negb shadowed
          && bool_decide (first_msg (ctor_calls literal) code = Some msg)
      end
  | None => true
  end.

(** May [c] open a C++ identifier?  A letter or an underscore. *)
Definition is_ident_start (c : ascii) : bool :=
  let n := nat_of_ascii c in
  ((65 <=? n)%nat && (n <=? 90)%nat)
  || ((97 <=? n)%nat && (n <=? 122)%nat)
  || (n =? 95)%nat.

(** Is [c] one of the three characters [FormatParseable] escapes? *)
Definition is_special (c : ascii) : bool :=
  Ascii.eqb c backslash || Ascii.eqb c comma || Ascii.eqb c semicolon.

(** [Log] called once for each message of [msgs], in order. *)
Definition log_all (ec : ErrorCodes.t) (st : Logger.t)
    (msgs : list Logger.LogMessage) : Logger.t :=
  fold_left (Logger.dispatch ec) msgs st.

(** A reader of the pending buffer: record after record, each followed by a
    newline.  Every record read uses up one unit of fuel. *)
Fixpoint read_buffer (fuel : nat) (s : Str.t) : option (list (list Str.t)) :=
  match s with
  | [] => Some []
  | _ :: _ =>
      match fuel with
      | O => None
      | S fuel' =>
          match read_record s with
          | Some (fs, c :: rest) =>
              if Ascii.eqb c newline then
                match read_buffer fuel' rest with
                | Some records => Some (fs :: records)
                | None => None
                end
              else None
          | _ => None
          end
      end
  end.

(** ** The listeners and the stream writer

    [m_listeners] is a [std::set] of [std::weak_ptr<std::ostream>] ordered by
    [std::owner_less]: a listener is known by its control block, held here as
    the block's address, and the set is a list of addresses in ascending
    order.  [streams] holds the streams that still have an owner, each with
    the characters written to it; a listener whose address is not a key of
    [streams] has expired.  [RunStream_pass] is one turn of the loop of
    [RunStream] after the thread was woken, run without another thread in
    between. *)

Module Listeners.

Record t := {
  logger : Logger.t;
  m_listeners : list Z;
  streams : gmap Z Str.t
}.

(** [std::set::insert]. *)
Fixpoint set_insert (w : Z) (l : list Z) : list Z :=
  match l with
  | [] => [w]
  | v :: l' =>
      if w <? v then w :: l
      else if w =? v then l
      else v :: set_insert w l'
  end.

(** [std::set::erase] by key. *)
Fixpoint set_erase (w : Z) (l : list Z) : list Z :=
  match l with
  | [] => []
  | v :: l' => if w =? v then l' else v :: set_erase w l'
  end.

Definition AddListener (sys : t) (listener : Z) : t :=
  {| logger := logger sys;
     m_listeners := set_insert listener (m_listeners sys);
     streams := streams sys |}.

Definition RemoveListener (sys : t) (listener : Z) : t :=
  {| logger := logger sys;
     m_listeners := set_erase listener (m_listeners sys);
     streams := streams sys |}.

(** The text of the warning about an expired listener. *)
Definition stale_warning : Str.t := "Deleting log listener from listener list.".

(** The line [printf] writes for every listener. *)
Definition writing_outputs : Str.t := "Writing outputs!" ++ [newline].

(** The body of the [for] loop of [RunStream] for the listener [w].
    [LOG_FUNC(kWARNING, ...)] is [Log(kWARNING, 0, ..., here, "")], the
    overload with an [int] code; [here] is the location the macro expands to,
    [env w] what the call receives from outside. *)
Definition visit (env : Z -> Logger.Env) (here : LogLocation.t)
    (ec : ErrorCodes.t) (pending : Str.t) (sys : t) (w : Z) : t :=
  let lg := Logger.set_cout (logger sys)
              (Logger.cout (logger sys) ++ writing_outputs) in
  match streams sys !! w with
  | Some written =>
      {| logger := lg;
         m_listeners := m_listeners sys;
         streams := <[w := written ++ pending]> (streams sys) |}
  | None =>
      {| logger := Logger.Log_code (env w) ec lg Logger.kWARNING 0
                     stale_warning here [] 3;
         m_listeners := set_erase w (m_listeners sys);
         streams := streams sys |}
  end.

(** One turn of the loop of [RunStream], from the return of [wait] on. *)
Definition RunStream_pass (env : Z -> Logger.Env) (here : LogLocation.t)
    (ec : ErrorCodes.t) (sys : t) : t :=
  if (length (Logger.m_pending (logger sys)) =? 0)%nat then sys
  else
    let pending := Logger.m_pending (logger sys) in
    let sys' := {| logger := Logger.set_pending (logger sys) [];
                   m_listeners := m_listeners sys;
                   streams := streams sys |} in
    let listeners := m_listeners sys' in
    fold_left (visit env here ec pending) listeners sys'.

(** A producer's call of [Log] on the system. *)
Definition Log (env : Logger.Env) (ec : ErrorCodes.t) (sys : t) (level : Z)
    (codename : char_ptr) (details : Str.t) (location : LogLocation.t)
    (originator : Str.t) : t :=
  {| logger := Logger.Log env ec (logger sys) level codename details
                 location originator;
     m_listeners := m_listeners sys;
     streams := streams sys |}.

(** The listeners of [l] that have not expired. *)
Definition alive (sys : t) (l : list Z) : list Z :=
  List.filter (fun w => bool_decide (is_Some (streams sys !! w))) l.

(** The listeners of [l] that have expired. *)
Definition expired (sys : t) (l : list Z) : list Z :=
  List.filter (fun w => negb (bool_decide (is_Some (streams sys !! w)))) l.

(** The set is in ascending order, so without repetition. *)
Definition ordered (l : list Z) : Prop := StronglySorted Z.lt l.

End Listeners.

Module SampleListeners.

(** Two listeners; the one at address 16 has a stream, the one at address 32
    has expired; one record is pending. *)
Definition sys : Listeners.t :=
  {| Listeners.logger :=
       Logger.Log_code Sample.env Sample.codes Logger.init 1 0 "x"
         Sample.location [] 3;
     Listeners.m_listeners := [16; 32];
     Listeners.streams := {[ 16 := "old" ]} |}.

Definition env (w : Z) : Logger.Env := Sample.env.

Definition here : LogLocation.t :=
  {| LogLocation.file := "Logger.cpp";
     LogLocation.func := "static void Logger::RunStream()";
     LogLocation.line := 181 |}.

End SampleListeners.

(** The message of the warning [RunStream] logs for the expired listener
    [w]. *)
Definition stale_message (env : Z -> Logger.Env) (here : LogLocation.t)
    (w : Z) : Logger.LogMessage :=
  Logger.make_message (env w) Logger.kWARNING 0 Listeners.stale_warning
    here [] 3.

(** ** Formatters with state

    A [std::function] may keep state between its calls (captured variables,
    globals).  Here a formatter takes the state [S] the callables can reach
    and returns, with its text, the state it leaves.  The members of the
    logger and its functions are those of [Logger], but that [ProcessLog] and
    [ProcessCommon] pass the state through the formatter they call. *)

Module Stateful.

Section WithState.

Variable S : Type.

Definition FormatLogFunc : Type := Logger.LogMessage -> S -> Str.t * S.

Record t := {
  m_levels : gmap Z Str.t;
  m_levelFormats : gmap Z FormatLogFunc;
  m_usestdout : bool;
  m_useNI : bool;
  m_pending : Str.t;
  cout : Str.t;
  HAL_sent : list Logger.HALError;
  captured : S
}.

Definition set_levels (st : t) (lv : gmap Z Str.t) : t :=
  {| m_levels := lv; m_levelFormats := m_levelFormats st;
     m_usestdout := m_usestdout st; m_useNI := m_useNI st;
     m_pending := m_pending st; cout := cout st; HAL_sent := HAL_sent st;
     captured := captured st |}.

Definition set_pending (st : t) (p : Str.t) : t :=
  {| m_levels := m_levels st; m_levelFormats := m_levelFormats st;
     m_usestdout := m_usestdout st; m_useNI := m_useNI st;
     m_pending := p; cout := cout st; HAL_sent := HAL_sent st;
     captured := captured st |}.

Definition set_cout (st : t) (o : Str.t) : t :=
  {| m_levels := m_levels st; m_levelFormats := m_levelFormats st;
     m_usestdout := m_usestdout st; m_useNI := m_useNI st;
     m_pending := m_pending st; cout := o; HAL_sent := HAL_sent st;
     captured := captured st |}.

Definition set_HAL_sent (st : t) (h : list Logger.HALError) : t :=
  {| m_levels := m_levels st; m_levelFormats := m_levelFormats st;
     m_usestdout := m_usestdout st; m_useNI := m_useNI st;
     m_pending := m_pending st; cout := cout st; HAL_sent := h;
     captured := captured st |}.

Definition set_captured (st : t) (s : S) : t :=
  {| m_levels := m_levels st; m_levelFormats := m_levelFormats st;
     m_usestdout := m_usestdout st; m_useNI := m_useNI st;
     m_pending := m_pending st; cout := cout st; HAL_sent := HAL_sent st;
     captured := s |}.

(** [FormatDefault], as in [Logger]. *)
Definition FormatDefault (st : t) (msg : Logger.LogMessage) : Str.t * t :=
  let (name, lv) := Logger.map_index (m_levels st) (Logger.level msg) in
  (take (Logger.kBufLen - 1)
     ("[" ++ c_str name ++ "]: From "
      ++ c_str (LogLocation.ShortFilename
                  (LogLocation.to_std_string (Logger.location msg)))
      ++ ": " ++ c_str (Logger.details msg) ++ [newline]),
   set_levels st lv).

(** [FormatParseable], as in [Logger]. *)
Definition FormatParseable (ec : ErrorCodes.t) (st : t)
    (msg : Logger.LogMessage) : Str.t * t :=
  let (name, lv) := Logger.map_index (m_levels st) (Logger.level msg) in
  let result :=
    fold_left (fun result str => result ++ (escape_component str ++ ","))
      (Logger.components ec name msg) [] in
  let result := pop_back result in
  (result ++ [semicolon; newline], set_levels st lv).

(** [m_levelFormats[msg.level](msg)]: the call of the formatter [f], which
    leaves its state behind. *)
Definition call_formatter (f : FormatLogFunc) (st : t)
    (msg : Logger.LogMessage) : Str.t * t :=
  let (text, s) := f msg (captured st) in (text, set_captured st s).

(** [ProcessNILog], as in [Logger]. *)
Definition ProcessNILog (st : t) (msg : Logger.LogMessage) : t :=
  set_HAL_sent st (HAL_sent st ++ [Logger.HAL_call msg]).

(** [ProcessLog]: the formatter of the level, if there is one, is called
    here, for the text sent to [std::cout]. *)
Definition ProcessLog (st : t) (msg : Logger.LogMessage) : t :=
  let (formatted, st) :=
    match m_levelFormats st !! Logger.level msg with
    | Some f => call_formatter f st msg
    | None => FormatDefault st msg
    end in
  set_cout st (cout st ++ formatted).

(** [ProcessCommon]: [Log] passes no text, so the formatter of the level is
    called here again, for the text appended to [m_pending]. *)
Definition ProcessCommon (ec : ErrorCodes.t) (st : t)
    (msg : Logger.LogMessage) (formatted : Str.t) : t :=
  let (formatted, st) :=
    if (length formatted =? 0)%nat then
      match m_levelFormats st !! Logger.level msg with
      | Some f => call_formatter f st msg
      | None => FormatParseable ec st msg
      end
    else (formatted, st) in
  set_pending st (m_pending st ++ formatted).

(** What [Log] does with the message once built. *)
Definition dispatch (ec : ErrorCodes.t) (st : t) (msg : Logger.LogMessage) : t :=
  let st :=
    if (Logger.level msg =? Logger.kNIWarning)
       || (Logger.level msg =? Logger.kNIError)
    then (if m_useNI st then ProcessNILog st msg else st)
    else (if m_usestdout st then ProcessLog st msg else st) in
  ProcessCommon ec st msg [].

Definition Log_code (env : Logger.Env) (ec : ErrorCodes.t) (st : t)
    (level code : Z) (details : Str.t) (location : LogLocation.t)
    (originator : Str.t) (depth : Z) : t :=
  dispatch ec st
    (Logger.make_message env level code details location originator depth).

Definition Log (env : Logger.Env) (ec : ErrorCodes.t) (st : t) (level : Z)
    (codename : char_ptr) (details : Str.t) (location : LogLocation.t)
    (originator : Str.t) : t :=
  match codename with
  | None => Log_code env ec st level 0 details location originator 3
  | Some s =>
      let code := atoi (Logger.atoi_overflow env) (c_chars s) in
      if negb (code =? 0)
      then Log_code env ec st level code details location originator 3
      else Log_code env ec st level (ErrorCodes.GetCode ec codename)
             details location originator 3
  end.

Definition SetStdoutEnable (st : t) (enabled : bool) : t :=
  {| m_levels := m_levels st; m_levelFormats := m_levelFormats st;
     m_usestdout := enabled; m_useNI := m_useNI st;
     m_pending := m_pending st; cout := cout st; HAL_sent := HAL_sent st;
     captured := captured st |}.

Definition SetNIEnable (st : t) (enabled : bool) : t :=
  {| m_levels := m_levels st; m_levelFormats := m_levelFormats st;
     m_usestdout := m_usestdout st; m_useNI := enabled;
     m_pending := m_pending st; cout := cout st; HAL_sent := HAL_sent st;
     captured := captured st |}.

Definition AddLevel (st : t) (level : Z) (name : Str.t) : t :=
  set_levels st (<[level := name]> (m_levels st)).

Definition AddFormatter (st : t) (level : Z) (formatter : FormatLogFunc) : t :=
  {| m_levels := m_levels st;
     m_levelFormats := <[level := formatter]> (m_levelFormats st);
     m_usestdout := m_usestdout st; m_useNI := m_useNI st;
     m_pending := m_pending st; cout := cout st; HAL_sent := HAL_sent st;
     captured := captured st |}.

(** The calls of a program, as [call] has them for [Logger]. *)
Inductive call :=
| CallLog (env : Logger.Env) (level : Z) (codename : char_ptr)
    (details : Str.t) (location : LogLocation.t) (originator : Str.t)
| CallLogCode (env : Logger.Env) (level code : Z)
    (details : Str.t) (location : LogLocation.t) (originator : Str.t)
    (depth : Z)
| CallAddLevel (level : Z) (name : Str.t)
| CallAddFormatter (level : Z) (formatter : FormatLogFunc)
| CallSetNIEnable (enabled : bool)
| CallErrorCodesAdd (code : Z) (msg : Str.t) (name : char_ptr).

Definition step (s : ErrorCodes.t * t) (c : call) : ErrorCodes.t * t :=
  let (ec, st) := s in
  match c with
  | CallLog env level codename details location originator =>
      (ec, Log env ec st level codename details location originator)
  | CallLogCode env level code details location originator depth =>
      (ec, Log_code env ec st level code details location originator depth)
  | CallAddLevel level name => (ec, AddLevel st level name)
  | CallAddFormatter level f => (ec, AddFormatter st level f)
  | CallSetNIEnable b => (ec, SetNIEnable st b)
  | CallErrorCodesAdd code msg name => (snd (ErrorCodes.Add ec code msg name), st)
  end.

Definition run (calls : list call) (s : ErrorCodes.t * t) : ErrorCodes.t * t :=
  fold_left step calls s.

(** The text of [f] depends on the message only, whatever [f] does to the
    state. *)
Definition text_only (f : FormatLogFunc) : Prop :=
  forall msg s s', fst (f msg s) = fst (f msg s').

(** The formatters a call brings along have text that depends on the
    message only. *)
Definition brings_text_only (c : call) : Prop :=
  match c with
  | CallAddFormatter _ f => text_only f
  | _ => True
  end.

(** A logger of [Logger], its formatters taken as callables that leave the
    state as they find it. *)
Definition lift (lg : Logger.t) (s : S) : t :=
  {| m_levels := Logger.m_levels lg;
     m_levelFormats :=
       (fun (f : Logger.LogMessage -> Str.t) msg s => (f msg, s))
         <$> Logger.m_levelFormats lg;
     m_usestdout := Logger.m_usestdout lg;
     m_useNI := Logger.m_useNI lg;
     m_pending := Logger.m_pending lg;
     cout := Logger.cout lg;
     HAL_sent := Logger.HAL_sent lg;
     captured := s |}.

(** Two states that differ at most in [m_usestdout], in what was written to
    [std::cout] and in the state of the callables. *)
Definition agree (st1 st2 : t) : Prop :=
  m_levels st1 = m_levels st2
  /\ m_levelFormats st1 = m_levelFormats st2
  /\ m_useNI st1 = m_useNI st2
  /\ m_pending st1 = m_pending st2
  /\ HAL_sent st1 = HAL_sent st2.

Definition formats_text_only (st : t) : Prop :=
  forall l f, m_levelFormats st !! l = Some f -> text_only f.

(** The state of the callables when [ProcessCommon] is reached: the one
    [ProcessLog] left, if [Log] went through it and a formatter was
    called. *)
Definition after_console (st : t) (msg : Logger.LogMessage) : S :=
  if negb (Logger.is_NILevel (Logger.level msg)) && m_usestdout st then
    match m_levelFormats st !! Logger.level msg with
    | Some f => snd (f msg (captured st))
    | None => captured st
    end
  else captured st.

End WithState.

Arguments m_levels {S}.
Arguments m_levelFormats {S}.
Arguments m_usestdout {S}.
Arguments m_useNI {S}.
Arguments m_pending {S}.
Arguments cout {S}.
Arguments HAL_sent {S}.
Arguments captured {S}.
Arguments dispatch {S}.
Arguments Log_code {S}.
Arguments Log {S}.
Arguments SetStdoutEnable {S}.
Arguments SetNIEnable {S}.
Arguments AddLevel {S}.
Arguments AddFormatter {S}.
Arguments CallLog {S}.
Arguments CallLogCode {S}.
Arguments CallAddLevel {S}.
Arguments CallAddFormatter {S}.
Arguments CallSetNIEnable {S}.
Arguments CallErrorCodesAdd {S}.
Arguments step {S}.
Arguments run {S}.
Arguments text_only {S}.
Arguments brings_text_only {S}.
Arguments lift {S}.
Arguments agree {S}.
Arguments formats_text_only {S}.
Arguments after_console {S}.
Arguments FormatParseable {S}.
Arguments FormatDefault {S}.

(** A formatter that numbers its calls: the state is the number of calls
    made so far, and the text is that number. *)
Definition numbering : FormatLogFunc Z :=
  fun _ n => (to_string n ++ [newline], n + 1).

(** A formatter that counts its calls and prints the code. *)
Definition counting : FormatLogFunc Z :=
  fun msg n => (to_string (Logger.code msg) ++ [newline], n + 1).

(** The fresh logger, with no call counted. *)
Definition init : t Z := lift Logger.init 0.

End Stateful.

(** * Properties *)

(** ** Strings *)

Section StrFacts.

Implicit Types pat r s : Str.t.

Lemma starts_with_length pat s :
  starts_with pat s = true -> (length pat <= length s)%nat.
Proof.
  revert s; induction pat as [|p pat IH]; intros [|c s] H; simpl in *;
    try lia; try discriminate.
  apply andb_prop in H as [_ H]. apply IH in H. lia.
Qed.

Lemma find_first_bound pat s k :
  find_first pat s = Some k -> (k + length pat <= length s)%nat.
Proof.
  revert k; induction s as [|c s IH]; intros k; simpl.
  - destruct (starts_with pat []) eqn:E; [|discriminate].
    intros [= <-]. apply starts_with_length in E. simpl in *. lia.
  - destruct (starts_with pat (c :: s)) eqn:E.
    + intros [= <-]. apply starts_with_length in E. simpl in *. lia.
    + destruct (find_first pat s) as [j|]; [|discriminate].
      intros [= <-]. specialize (IH j eq_refl). simpl. lia.
Qed.

Lemma replace_scan_skip pat r n s :
  replace_scan pat r n s = replace_scan pat r 0 (drop n s).
Proof.
  revert n; induction s as [|c s IH]; intros [|n]; simpl; auto.
Qed.

Lemma replace_scan_match pat r s :
  pat <> [] -> starts_with pat s = true ->
  replace_scan pat r 0 s = r ++ replace_scan pat r 0 (drop (length pat) s).
Proof.
  intros Hne H. destruct s as [|c s].
  - destruct pat; [congruence | discriminate].
  - cbn [replace_scan]. rewrite H, replace_scan_skip.
    destruct pat as [|p pat]; [congruence|]. simpl. now rewrite Nat.sub_0_r.
Qed.

Lemma replace_scan_none pat r s :
  find_first pat s = None -> replace_scan pat r 0 s = s.
Proof.
  induction s as [|c s IH]; simpl; auto.
  destruct (starts_with pat (c :: s)); [discriminate|].
  destruct (find_first pat s); [discriminate|].
  intros _. now rewrite IH.
Qed.

Lemma replace_scan_some pat r s k :
  pat <> [] -> find_first pat s = Some k ->
  replace_scan pat r 0 s
  = take k s ++ r ++ replace_scan pat r 0 (drop (k + length pat) s).
Proof.
  intros Hne. revert k; induction s as [|c s IH]; intros k.
  - simpl. destruct (starts_with pat []) eqn:E; [|discriminate].
    destruct pat; [congruence | discriminate].
  - cbn [find_first]. destruct (starts_with pat (c :: s)) eqn:E.
    + intros [= <-]. now rewrite replace_scan_match.
    + destruct (find_first pat s) as [j|] eqn:F; [|discriminate].
      intros [= <-]. cbn [replace_scan]. rewrite E. simpl.
      now rewrite (IH j).
Qed.

End StrFacts.

(** ** [FindAndReplace]: the loop and the pass *)

Section FindAndReplaceFacts.

Implicit Types source pat r : Str.t.

(** With fuel for the characters still ahead of [i], the loop of the source
    leaves, and [source] then holds what was before [i] followed by the pass
    over the rest. *)
Lemma FindAndReplace_loop_scan pat r fuel :
  pat <> [] ->
  forall source i,
    (i <= length source)%nat -> (length source - i < fuel)%nat ->
    FindAndReplace_loop fuel source pat r i
    = Some (take i source ++ replace_scan pat r 0 (drop i source)).
Proof.
  intros Hne. induction fuel as [|fuel IH]; intros source i Hi Hfuel; [lia|].
  cbn [FindAndReplace_loop]. unfold Str.find.
  destruct (Nat.leb_spec i (length source)) as [_|?]; [|lia].
  destruct (find_first pat (drop i source)) as [k|] eqn:F; cbn [option_map].
  - pose proof (find_first_bound _ _ _ F) as Hk. rewrite length_drop in Hk.
    assert (length pat <> 0)%nat by (destruct pat; [congruence | discriminate]).
    set (A := take (i + k) source).
    set (B := drop (i + k + length pat) source).
    assert (HA : length A = (i + k)%nat) by (subst A; rewrite length_take; lia).
    unfold Str.replace. fold A B.
    rewrite IH.
    + f_equal.
      rewrite (app_assoc A r B).
      rewrite (take_app_length' (A ++ r) B)
        by (rewrite length_app; lia).
      rewrite (drop_app_length' (A ++ r) B)
        by (rewrite length_app; lia).
      rewrite (replace_scan_some pat r (drop i source) k Hne F).
      rewrite drop_drop. subst A B.
      rewrite <- (take_take_drop source i k).
      now rewrite <- !app_assoc, Nat.add_assoc.
    + rewrite !length_app. lia.
    + rewrite !length_app. subst B. rewrite length_drop. lia.
  - rewrite (replace_scan_none _ _ _ F). now rewrite take_drop.
Qed.

(** The loop of [FindAndReplace] leaves within the fuel that the definition
    of [FindAndReplace] gives it. *)
Lemma FindAndReplace_loop_returns source pat r :
  pat <> [] ->
  FindAndReplace_loop (S (length source)) source pat r 0
  = Some (FindAndReplace source pat r).
Proof.
  intros Hne. unfold FindAndReplace.
  now rewrite (FindAndReplace_loop_scan pat r _ Hne source 0%nat) by lia.
Qed.

Lemma FindAndReplace_scan source pat r :
  pat <> [] -> FindAndReplace source pat r = replace_scan pat r 0 source.
Proof.
  intros Hne. unfold FindAndReplace.
  now rewrite (FindAndReplace_loop_scan pat r _ Hne source 0%nat) by lia.
Qed.

(** With an empty [find] the loop of the source never leaves: no amount of
    fuel is enough. *)
Lemma FindAndReplace_loop_empty_find r fuel :
  forall source i,
    (i <= length source)%nat -> FindAndReplace_loop fuel source [] r i = None.
Proof.
  induction fuel as [|fuel IH]; intros source i Hi; [reflexivity|].
  cbn [FindAndReplace_loop]. unfold Str.find.
  destruct (Nat.leb_spec i (length source)) as [_|?]; [|lia].
  replace (find_first [] (drop i source)) with (Some 0%nat)
    by (now destruct (drop i source)).
  cbn [option_map]. apply IH. unfold Str.replace.
  rewrite !length_app, length_take, length_drop. cbn [length]. lia.
Qed.

End FindAndReplaceFacts.

(** ** Escaping and its inverse *)

Section Escaping.

Implicit Types s : Str.t.

(** Putting a backslash before every [c] never leaves a [c] at the head,
    unless [c] is the backslash itself. *)
Lemma escaped_head c s :
  c <> backslash ->
  starts_with [c] (replace_scan [c] [backslash; c] 0 s) = false.
Proof.
  intros Hc. destruct s as [|x s]; [reflexivity|].
  cbn [replace_scan starts_with]. rewrite andb_true_r.
  destruct (Ascii.eqb_spec c x) as [->|Hx]; cbn [app starts_with].
  - rewrite andb_true_r. now apply Ascii.eqb_neq.
  - rewrite andb_true_r. now apply Ascii.eqb_neq.
Qed.

(** One substitution undone: removing the backslash before every [c] after
    one was put before every [c] gives the string back. *)
Lemma unescape_escape_char c s :
  replace_scan [backslash; c] [c] 0 (replace_scan [c] [backslash; c] 0 s) = s.
Proof.
  induction s as [|x s IH]; [reflexivity|].
  cbn [replace_scan starts_with]. rewrite andb_true_r.
  destruct (Ascii.eqb_spec c x) as [->|Hx].
  - cbn [app replace_scan starts_with length Nat.sub].
    rewrite !Ascii.eqb_refl. cbn [andb app]. now rewrite IH.
  - cbn [replace_scan].
    replace (starts_with [backslash; c]
               (x :: replace_scan [c] [backslash; c] 0 s)) with false.
    + now rewrite IH.
    + cbn [starts_with]. destruct (Ascii.eqb_spec backslash x) as [<-|]; [|reflexivity].
      cbn [andb]. symmetry. apply escaped_head. congruence.
Qed.

Lemma unescape_escape_component s :
  unescape_component (escape_component s) = s.
Proof.
  unfold unescape_component, escape_component.
  rewrite !FindAndReplace_scan by discriminate.
  rewrite (unescape_escape_char ";"%char).
  rewrite (unescape_escape_char ","%char).
  apply (unescape_escape_char backslash).
Qed.

(** Escaping, character by character. *)
Lemma replace_scan_single c s :
  replace_scan [c] [backslash; c] 0 s
  = flat_map (fun x => if Ascii.eqb c x then [backslash; c] else [x]) s.
Proof.
  induction s as [|x s IH]; [reflexivity|].
  cbn [replace_scan starts_with flat_map length Nat.sub].
  rewrite andb_true_r, IH. now destruct (Ascii.eqb c x).
Qed.

Lemma escape_component_chars s :
  escape_component s = flat_map escape_char s.
Proof.
  unfold escape_component. rewrite !FindAndReplace_scan by discriminate.
  rewrite (replace_scan_single backslash), (replace_scan_single ","%char),
    (replace_scan_single ";"%char).
  induction s as [|x s IH]; [reflexivity|].
  cbn [flat_map]. rewrite !flat_map_app, IH. f_equal.
  unfold escape_char.
  destruct (Ascii.eqb_spec x backslash) as [->|Hb]; [reflexivity|].
  destruct (Ascii.eqb_spec x comma) as [->|Hc]; [reflexivity|].
  destruct (Ascii.eqb_spec x semicolon) as [->|Hs]; [reflexivity|].
  cbn [orb].
  assert (E1 : Ascii.eqb backslash x = false)
    by (apply Ascii.eqb_neq; intros <-; auto).
  assert (E2 : Ascii.eqb ","%char x = false)
    by (apply Ascii.eqb_neq; intros <-; auto).
  assert (E3 : Ascii.eqb ";"%char x = false)
    by (apply Ascii.eqb_neq; intros <-; auto).
  rewrite E1. cbn [flat_map app]. rewrite E2. cbn [flat_map app]. now rewrite E3.
Qed.

(** The reader passes over an escaped string without ending the field. *)
Lemma split_record_escaped s field rest :
  split_record (escape_component s ++ rest) field
  = split_record rest (field ++ escape_component s).
Proof.
  rewrite escape_component_chars. revert field.
  induction s as [|x s IH]; intros field; [now rewrite app_nil_r|].
  cbn [flat_map]. rewrite <- app_assoc. unfold escape_char at 1 3.
  destruct (Ascii.eqb_spec x backslash) as [->|Hb];
    [|destruct (Ascii.eqb_spec x comma) as [->|Hc];
      [|destruct (Ascii.eqb_spec x semicolon) as [->|Hs]]];
    cbn [orb app split_record].
  1-3: rewrite Ascii.eqb_refl, IH; now rewrite <- app_assoc.
  apply Ascii.eqb_neq in Hb, Hc, Hs. rewrite Hb, Hc, Hs, IH.
  now rewrite <- app_assoc.
Qed.

(** The reader finds the fields that [join] put together. *)
Lemma split_record_join (fs : list Str.t) (rest : Str.t) :
  fs <> [] ->
  split_record (Logger.join (List.map escape_component fs) ++ semicolon :: rest) []
  = Some (List.map escape_component fs, rest).
Proof.
  induction fs as [|f fs IH]; intros Hne; [congruence|].
  destruct fs as [|f' fs].
  - cbn [List.map Logger.join]. rewrite split_record_escaped. reflexivity.
  - change (Logger.join (List.map escape_component (f :: f' :: fs)))
      with (escape_component f ++ ","
            ++ Logger.join (List.map escape_component (f' :: fs))).
    rewrite <- !app_assoc, split_record_escaped. cbn [app split_record].
    replace (Ascii.eqb ","%char backslash) with false by reflexivity.
    replace (Ascii.eqb ","%char comma) with true by reflexivity.
    now rewrite IH.
Qed.

End Escaping.

(** ** The formatters *)

Section Formatters.

Import Logger.

Implicit Types (st : Logger.t) (ec : ErrorCodes.t) (msg : LogMessage).

Lemma map_index_fst st k : fst (map_index (m_levels st) k) = level_name st k.
Proof. unfold map_index, level_name. now destruct (m_levels st !! k). Qed.

(** [operator[]] leaves every entry that was there, and enters the empty
    name under [k] when there was none. *)
Lemma map_index_snd_lookup (m : gmap Z Str.t) k j :
  snd (map_index m k) !! j
  = match m !! j with
    | Some v => Some v
    | None => if decide (k = j) then Some [] else None
    end.
Proof.
  unfold map_index. destruct (m !! k) eqn:E; cbn [snd].
  - destruct (m !! j) eqn:F; [reflexivity|].
    destruct (decide (k = j)) as [->|]; [congruence | reflexivity].
  - rewrite lookup_insert. destruct (decide (k = j)) as [<-|].
    + now rewrite E.
    + now destruct (m !! j).
Qed.

Lemma map_index_idem (m : gmap Z Str.t) k :
  map_index (snd (map_index m k)) k = (fst (map_index m k), snd (map_index m k)).
Proof.
  unfold map_index. destruct (m !! k) eqn:E; cbn [fst snd].
  - now rewrite E.
  - now rewrite lookup_insert_eq.
Qed.

(** The accumulation of [FormatParseable] followed by [pop_back] is the
    comma-separated list of the escaped components. *)
Lemma accumulate_join (l : list Str.t) (acc : Str.t) :
  l <> [] ->
  pop_back (fold_left (fun result str => result ++ (escape_component str ++ ","))
              l acc)
  = acc ++ join (List.map escape_component l).
Proof.
  revert acc; induction l as [|s l IH]; intros acc Hne; [congruence|].
  destruct l as [|s' l].
  - cbn [fold_left List.map join]. unfold pop_back.
    rewrite app_assoc. apply removelast_last.
  - cbn [fold_left] in *. rewrite IH by discriminate.
    cbn [List.map join]. now rewrite <- !app_assoc.
Qed.

Lemma FormatParseable_fst ec st msg :
  fst (FormatParseable ec st msg)
  = parseable_record ec st msg.
Proof.
  unfold FormatParseable, parseable_record.
  pose proof (map_index_fst st (level msg)) as Hn.
  destruct (map_index (m_levels st) (level msg)) as [name lv].
  cbn [fst] in *. subst name.
  now rewrite accumulate_join by discriminate.
Qed.

Lemma FormatParseable_snd ec st msg :
  snd (FormatParseable ec st msg)
  = set_levels st (snd (map_index (m_levels st) (level msg))).
Proof.
  unfold FormatParseable.
  now destruct (map_index (m_levels st) (level msg)).
Qed.

Lemma FormatDefault_fst st msg :
  fst (FormatDefault st msg) = default_line (level_name st (level msg)) msg.
Proof.
  unfold FormatDefault.
  pose proof (map_index_fst st (level msg)) as Hn.
  destruct (map_index (m_levels st) (level msg)) as [name lv].
  cbn [fst] in *. now subst name.
Qed.

Lemma FormatDefault_snd st msg :
  snd (FormatDefault st msg)
  = set_levels st (snd (map_index (m_levels st) (level msg))).
Proof.
  unfold FormatDefault.
  now destruct (map_index (m_levels st) (level msg)).
Qed.

(** Reading the record back gives the nine fields as they were before
    escaping, and leaves the newline. *)
Lemma FormatParseable_read_back ec st msg :
  read_record (fst (FormatParseable ec st msg))
  = Some (fields ec st msg, [newline]).
Proof.
  rewrite FormatParseable_fst. unfold parseable_record, read_record.
  rewrite split_record_join by discriminate.
  rewrite List.map_map. f_equal. f_equal.
  rewrite <- (List.map_id (fields ec st msg)) at 2.
  apply List.map_ext. apply unescape_escape_component.
Qed.

End Formatters.

(** ** The dispatcher *)

Section Dispatcher.

Import Logger.

Implicit Types (st : Logger.t) (ec : ErrorCodes.t) (msg : LogMessage).

Lemma FormatParseable_eq ec st msg :
  FormatParseable ec st msg
  = (parseable_record ec st msg,
     set_levels st (snd (map_index (m_levels st) (level msg)))).
Proof.
  rewrite <- (FormatParseable_fst ec st msg), <- (FormatParseable_snd ec st msg).
  apply surjective_pairing.
Qed.

Lemma FormatDefault_eq st msg :
  FormatDefault st msg
  = (default_line (level_name st (level msg)) msg,
     set_levels st (snd (map_index (m_levels st) (level msg)))).
Proof.
  rewrite <- (FormatDefault_fst st msg), <- (FormatDefault_snd st msg).
  apply surjective_pairing.
Qed.

Lemma level_name_map_index st k :
  level_name (set_levels st (snd (map_index (m_levels st) k))) k
  = level_name st k.
Proof.
  unfold level_name. cbn [m_levels set_levels].
  rewrite map_index_snd_lookup.
  destruct (m_levels st !! k); [reflexivity|].
  now rewrite decide_True.
Qed.

Lemma parseable_record_ext ec st st' msg :
  level_name st (level msg) = level_name st' (level msg) ->
  parseable_record ec st msg = parseable_record ec st' msg.
Proof. intros H. unfold parseable_record, fields. now rewrite H. Qed.

Lemma parseable_record_map_index ec st msg :
  parseable_record ec
    (set_levels st (snd (map_index (m_levels st) (level msg)))) msg
  = parseable_record ec st msg.
Proof.
  unfold parseable_record, fields. now rewrite level_name_map_index.
Qed.

(** [Log] in one piece: every member and both outputs after the call. *)
Lemma dispatch_eq ec st msg :
  dispatch ec st msg
  = {| m_levels := levels_after st msg;
       m_levelFormats := m_levelFormats st;
       m_usestdout := m_usestdout st;
       m_useNI := m_useNI st;
       m_pending := m_pending st ++ buffer_entry ec st msg;
       cout := if negb (is_NILevel (level msg)) && m_usestdout st
               then cout st ++ console_entry st msg else cout st;
       HAL_sent := if is_NILevel (level msg) && m_useNI st
                   then HAL_sent st ++ [HAL_call msg] else HAL_sent st |}.
Proof.
  unfold dispatch, ProcessCommon, ProcessLog, ProcessNILog, levels_after,
    buffer_entry, console_entry. fold (is_NILevel (level msg)).
  fold (HAL_call msg). cbn [length Nat.eqb].
  destruct st as [lv fm so ni pend out hal]; cbn [m_levels m_levelFormats
    m_usestdout m_useNI m_pending cout HAL_sent].
  destruct (is_NILevel (level msg)), ni, so; cbn [negb andb];
    rewrite ?FormatDefault_eq;
    cbn [set_HAL_sent set_cout set_levels m_levels m_levelFormats m_usestdout
           m_useNI m_pending cout HAL_sent];
    destruct (fm !! level msg) eqn:F;
    rewrite ?(FormatParseable_eq ec);
    cbn [set_HAL_sent set_cout set_levels set_pending m_levels m_levelFormats
           m_usestdout m_useNI m_pending cout HAL_sent];
    rewrite ?F, ?(FormatParseable_eq ec);
    cbn [set_HAL_sent set_cout set_levels set_pending m_levels m_levelFormats
           m_usestdout m_useNI m_pending cout HAL_sent];
    try reflexivity.
  all: unfold set_pending, set_levels, set_cout;
    cbn [m_levels m_levelFormats m_usestdout m_useNI m_pending cout HAL_sent].
  all: rewrite map_index_idem; cbn [snd]; f_equal; f_equal.
  all: apply parseable_record_ext; unfold level_name; cbn [m_levels].
  all: rewrite map_index_snd_lookup; destruct (lv !! level msg);
    [reflexivity | now rewrite decide_True].
Qed.

End Dispatcher.

(** ** The code a name resolves to *)

Section CodeResolution.

Import Logger.

(** C1.  [Log] with a codename that is not null builds and dispatches one
    message, at depth 3.  When [atoi] reads a number other than 0 from the
    codename, the code of that message is this number, whatever the registry
    holds; when [atoi] reads 0, the code is [ErrorCodes::GetCode(codename)],
    which is 0 for a name the registry does not hold. *)
Theorem Log_codename_resolution
    (env : Env) (ec : ErrorCodes.t) (st : Logger.t) (level : Z)
    (codename : cstring) (details : Str.t) (location : LogLocation.t)
    (originator : Str.t) :
  let parsed := atoi (atoi_overflow env) (c_chars codename) in
  exists msg : LogMessage,
    Log env ec st level (Some codename) details location originator
    = dispatch ec st msg
    /\ msg = make_message env level (code msg) details location originator 3
    /\ (parsed <> 0 -> code msg = parsed)
    /\ (parsed = 0 -> code msg = ErrorCodes.GetCode ec (Some codename))
    /\ (ErrorCodes.m_names ec !! c_addr codename = None ->
        ErrorCodes.GetCode ec (Some codename) = 0).
Proof.
  intros parsed. unfold Log. fold parsed.
  destruct (Z.eqb_spec parsed 0) as [E|E]; cbn [negb].
  - eexists. split; [reflexivity|]. split; [reflexivity|]. cbn [code make_message].
    repeat split; try congruence.
    unfold ErrorCodes.GetCode. cbn [ptr_value]. now intros ->.
  - eexists. split; [reflexivity|]. split; [reflexivity|]. cbn [code make_message].
    repeat split; try congruence.
    unfold ErrorCodes.GetCode. cbn [ptr_value]. now intros ->.
Qed.

(** The numeral ["100"] is taken as the code 100, and the name ["Timeout"]
    is looked up. *)
Lemma Log_codename_resolution_witness :
  (exists msg,
     Log Sample.env Sample.codes Logger.init kDEBUG (Some (Sample.name "100"))
       "connection lost" Sample.location "SensorX"
     = dispatch Sample.codes Logger.init msg /\ code msg = 100)
  /\ (exists msg,
     Log Sample.env Sample.codes Logger.init kDEBUG (Some (Sample.name "Timeout"))
       "connection lost" Sample.location "SensorX"
     = dispatch Sample.codes Logger.init msg /\ code msg = -6).
Proof.
  split.
  - destruct (Log_codename_resolution Sample.env Sample.codes Logger.init kDEBUG
                (Sample.name "100") "connection lost" Sample.location "SensorX")
      as (msg & H & _ & Hn & _).
    exists msg. split; [exact H|]. rewrite Hn; [reflexivity|]. vm_compute. discriminate.
  - destruct (Log_codename_resolution Sample.env Sample.codes Logger.init kDEBUG
                (Sample.name "Timeout") "connection lost" Sample.location "SensorX")
      as (msg & H & _ & _ & Hz & _).
    exists msg. split; [exact H|]. rewrite Hz; reflexivity.
Defined.

End CodeResolution.

(** ** The parseable record *)

Section ParseableRecord.

Import Logger.

(** C2.  For every message the parseable formatter returns one record of
    exactly nine escaped fields, in this order: the level as a number, the
    name of the level, the code as a number, the message [ErrorCodes::Get] has
    for the code, the location as [file:function:line], the timestamp in whole
    milliseconds, the stack trace, the originator, the details.  A field is
    escaped when each of its backslashes, commas and semicolons has a
    backslash put before it and nothing else is changed; the statement
    writes this out character by character, apart from [escape_component].
    A comma stands between two fields; a
    semicolon and a newline end the record.  So the only commas and the only
    semicolon of the record that no backslash escapes are the eight
    separators and the terminator: a reader that splits there and removes the
    escaping finds the nine fields as they were, and the newline. *)
Theorem FormatParseable_nine_fields
    (ec : ErrorCodes.t) (st : Logger.t) (msg : LogMessage) :
  let escaped (field : Str.t) : Str.t :=
    flat_map
      (fun c : ascii =>
         if Ascii.eqb c "\" || Ascii.eqb c "," || Ascii.eqb c ";"
         then ["\"%char; c] else [c])
      field in
  let nine_fields : list Str.t :=
    [ to_string (level msg);
      level_name st (level msg);
      to_string (code msg);
      ErrorCodes.Get ec (code msg);
      LogLocation.file (location msg) ++ ":" ++
      LogLocation.func (location msg) ++ ":" ++
      to_string (LogLocation.line (location msg));
      to_string (Z.quot (timestamp msg) 1000000);
      stacktrace msg;
      originatingObject msg;
      details msg ] in
  fst (FormatParseable ec st msg)
  = escaped (to_string (level msg)) ++ "," ++
    escaped (level_name st (level msg)) ++ "," ++
    escaped (to_string (code msg)) ++ "," ++
    escaped (ErrorCodes.Get ec (code msg)) ++ "," ++
    escaped
      (LogLocation.file (location msg) ++ ":" ++
       LogLocation.func (location msg) ++ ":" ++
       to_string (LogLocation.line (location msg))) ++ "," ++
    escaped (to_string (Z.quot (timestamp msg) 1000000)) ++ "," ++
    escaped (stacktrace msg) ++ "," ++
    escaped (originatingObject msg) ++ "," ++
    escaped (details msg) ++ ";" ++ [newline]
  /\ length nine_fields = 9%nat
  /\ read_record (fst (FormatParseable ec st msg))
     = Some (nine_fields, [newline]).
Proof.
  intros escaped nine_fields.
  assert (He : forall s, escaped s = escape_component s).
  { intros s. rewrite escape_component_chars. reflexivity. }
  split; [|split; [reflexivity|]].
  - rewrite !He, FormatParseable_fst. unfold parseable_record, fields.
    cbn [List.map join]. now rewrite <- !app_assoc.
  - apply FormatParseable_read_back.
Qed.


End ParseableRecord.

(** ** The hardware path and the console path *)

Section Paths.

Import Logger.

(** C4, as stated, fails: [kWARNING] is a level of the generic space, and
    [Log] at that level calls [HALSendError]. *)
Lemma generic_level_reaches_hardware :
  ~ (forall env ec st level code details location originator depth,
        level = kDEBUG \/ level = kWARNING \/ level = kERROR ->
        HAL_sent (Log_code env ec st level code details location originator depth)
        = HAL_sent st).
Proof.
  intros H.
  specialize (H Sample.env Sample.codes Logger.init kWARNING 0 "x"
                Sample.location [] 3 (or_intror (or_introl eq_refl))).
  vm_compute in H. discriminate H.
Qed.

(** C4, amended.  The two [NILevel] values are 2 and 3, the numbers of
    [kWARNING] and [kERROR].  At every other level (so at [kDEBUG] and at
    every custom level) [Log] makes no call to [HALSendError]; at 2 and 3 it
    writes nothing to [std::cout] and calls [HALSendError] once if the
    hardware channel is enabled and not at all otherwise.  Of that call the
    error flag, the code, the details and the stack trace are determined; what
    it finds behind its location argument is left open. *)
Theorem hardware_levels_are_warning_and_error
    (env : Env) (ec : ErrorCodes.t) (st : Logger.t) (level code : Z)
    (details : Str.t) (location : LogLocation.t) (originator : Str.t)
    (depth : Z) :
  let st' := Log_code env ec st level code details location originator depth in
  kNIWarning = kWARNING /\ kNIError = kERROR
  /\ (level <> 2 -> level <> 3 -> HAL_sent st' = HAL_sent st)
  /\ (level = 2 \/ level = 3 ->
      cout st' = cout st
      /\ (m_useNI st = false -> HAL_sent st' = HAL_sent st)
      /\ (m_useNI st = true ->
          exists call : HALError,
            HAL_sent st' = HAL_sent st ++ [call]
            /\ isError call = (level =? 3)
            /\ errorCode call = code
            /\ errorDetails call = c_str details
            /\ callStack call = c_str (GetStackTrace env depth))).
Proof.
  intros st'. subst st'. unfold Log_code.
  set (msg := make_message env level code details location originator depth).
  rewrite dispatch_eq.
  cbn [HAL_sent cout]. unfold is_NILevel, kNIWarning, kNIError.
  replace (Logger.level msg) with level by reflexivity.
  split; [reflexivity|]. split; [reflexivity|]. split.
  - intros H2 H3.
    destruct (Z.eqb_spec level 2); [contradiction|].
    destruct (Z.eqb_spec level 3); [contradiction|]. reflexivity.
  - intros H.
    assert (Hni : (level =? 2) || (level =? 3) = true)
      by (destruct H as [-> | ->]; reflexivity).
    rewrite Hni. cbn [negb andb]. split; [reflexivity|]. split.
    + intros ->. reflexivity.
    + intros ->. exists (HAL_call msg). repeat split.
Qed.

Lemma hardware_levels_are_warning_and_error_witness :
  HAL_sent (Log_code Sample.env Sample.codes Logger.init kDEBUG 0 "x"
              Sample.location [] 3) = []
  /\ cout (Log_code Sample.env Sample.codes Logger.init kERROR 0 "x"
             Sample.location [] 3) = []
  /\ exists call,
       HAL_sent (Log_code Sample.env Sample.codes Logger.init kERROR 0 "x"
                   Sample.location [] 3) = [call]
       /\ isError call = true.
Proof.
  split; [|split].
  - destruct (hardware_levels_are_warning_and_error Sample.env Sample.codes
                Logger.init kDEBUG 0 "x" Sample.location [] 3)
      as (_ & _ & H & _).
    apply H; unfold kDEBUG; lia.
  - destruct (hardware_levels_are_warning_and_error Sample.env Sample.codes
                Logger.init kERROR 0 "x" Sample.location [] 3)
      as (_ & _ & _ & H).
    destruct (H (or_intror eq_refl)) as [Hc _]. exact Hc.
  - destruct (hardware_levels_are_warning_and_error Sample.env Sample.codes
                Logger.init kERROR 0 "x" Sample.location [] 3)
      as (_ & _ & _ & H).
    destruct (H (or_intror eq_refl)) as (_ & _ & Hon).
    destruct (Hon eq_refl) as (call & Hs & He & _).
    exists call. split; [exact Hs | exact He].
Defined.

End Paths.

(** ** Two runs that differ in the console toggle *)

Section StdoutToggle.

Import Logger.

Implicit Types (st : Logger.t) (ec : ErrorCodes.t) (msg : LogMessage).

Lemma dispatch_agree ec st1 st2 msg :
  agree_off_stdout st1 st2 ->
  agree_off_stdout (dispatch ec st1 msg) (dispatch ec st2 msg).
Proof.
  intros (Hl & Hf & Hn & Hp & Hh). rewrite !dispatch_eq.
  unfold agree_off_stdout, levels_after, buffer_entry, parseable_record,
    fields, level_name.
  cbn [m_levels m_levelFormats m_useNI m_pending HAL_sent].
  now rewrite Hl, Hf, Hn, Hp, Hh.
Qed.

Lemma step_agree (c : call) ec st1 st2 :
  agree_off_stdout st1 st2 ->
  fst (step (ec, st1) c) = fst (step (ec, st2) c)
  /\ agree_off_stdout (snd (step (ec, st1) c)) (snd (step (ec, st2) c)).
Proof.
  intros H. destruct c; cbn [step fst snd]; (split; [reflexivity|]).
  - unfold Log, Log_code. destruct codename as [s|]; [|now apply dispatch_agree].
    destruct (negb _); now apply dispatch_agree.
  - now apply dispatch_agree.
  - destruct H as (Hl & Hf & Hn & Hp & Hh). unfold agree_off_stdout, AddLevel.
    cbn. now rewrite Hl.
  - destruct H as (Hl & Hf & Hn & Hp & Hh). unfold agree_off_stdout.
    cbn. now rewrite Hf.
  - destruct H as (Hl & Hf & Hn & Hp & Hh). unfold agree_off_stdout. now cbn.
  - exact H.
Qed.

Lemma run_agree (calls : list call) ec st1 st2 :
  agree_off_stdout st1 st2 ->
  fst (run calls (ec, st1)) = fst (run calls (ec, st2))
  /\ agree_off_stdout (snd (run calls (ec, st1))) (snd (run calls (ec, st2))).
Proof.
  revert ec st1 st2. induction calls as [|c calls IH]; intros ec st1 st2 H.
  - now split.
  - unfold run in *. cbn [fold_left].
    destruct (step_agree c ec st1 st2 H) as [He Ha].
    destruct (step (ec, st1) c) as [ec1 st1'], (step (ec, st2) c) as [ec2 st2'].
    cbn [fst snd] in *. subst ec2. now apply IH.
Qed.

(** With the console path disabled a call writes nothing to [std::cout] and
    leaves the path disabled. *)
Lemma step_stdout_off (c : call) ec st :
  m_usestdout st = false ->
  m_usestdout (snd (step (ec, st) c)) = false
  /\ cout (snd (step (ec, st) c)) = cout st.
Proof.
  intros H. destruct c; cbn [step fst snd]; try (now split).
  - unfold Log, Log_code. destruct codename as [s|]; [destruct (negb _)|];
      rewrite dispatch_eq; cbn [m_usestdout cout]; rewrite H;
      now rewrite andb_false_r.
  - unfold Log_code. rewrite dispatch_eq. cbn [m_usestdout cout]. rewrite H.
    now rewrite andb_false_r.
Qed.

Lemma run_stdout_off (calls : list call) ec st :
  m_usestdout st = false ->
  cout (snd (run calls (ec, st))) = cout st.
Proof.
  revert ec st. induction calls as [|c calls IH]; intros ec st H; [reflexivity|].
  unfold run in *. cbn [fold_left].
  destruct (step_stdout_off c ec st H) as [Hu Hc].
  destruct (step (ec, st) c) as [ec' st']. cbn [snd] in *.
  now rewrite IH.
Qed.

(** Formatters without state.  Take any state of the two singletons (levels,
    formatters, codes) and any sequence of calls ([Log] of either kind,
    [AddLevel], [AddFormatter], [SetNIEnable], [ErrorCodes::Add]), and run the
    sequence twice, once with the console path enabled and once with it
    disabled.  The pending buffer is the same after both runs, and so are the
    levels, the formatters, the hardware toggle and the calls of
    [HALSendError]; the run with the console path disabled has written
    nothing to [std::cout].  Formatters that keep state are the subject of
    [Stateful]. *)
Lemma stdout_toggle_leaves_buffer
    (calls : list call) (ec : ErrorCodes.t) (st : Logger.t) :
  let on := snd (run calls (ec, SetStdoutEnable st true)) in
  let off := snd (run calls (ec, SetStdoutEnable st false)) in
  m_pending on = m_pending off
  /\ m_levels on = m_levels off
  /\ m_levelFormats on = m_levelFormats off
  /\ m_useNI on = m_useNI off
  /\ HAL_sent on = HAL_sent off
  /\ cout off = cout st.
Proof.
  intros on off.
  destruct (run_agree calls ec (SetStdoutEnable st true)
              (SetStdoutEnable st false)) as (_ & Hl & Hf & Hn & Hp & Hh).
  { now repeat split. }
  repeat split; try assumption.
  subst off. now rewrite run_stdout_off.
Qed.

End StdoutToggle.

(** ** One buffer entry for each call *)

Section BufferEntry.

Import Logger.

(** C6.  Every call of [Log], at every level and under every setting of the
    two toggles, leaves the pending buffer as it was with one entry added at
    its end: what the formatter registered for the level returns for the
    message, or the parseable record when none is registered.  The entry does
    not depend on the toggles. *)
Theorem Log_appends_one_entry
    (env : Env) (ec : ErrorCodes.t) (st : Logger.t) (level code : Z)
    (codename : char_ptr) (details : Str.t) (location : LogLocation.t)
    (originator : Str.t) (depth : Z) (stdout_enabled NI_enabled : bool) :
  let entry msg :=
    match m_levelFormats st !! level with
    | Some formatter => formatter msg
    | None => fst (FormatParseable ec st msg)
    end in
  let st0 := SetNIEnable (SetStdoutEnable st stdout_enabled) NI_enabled in
  m_pending (Log_code env ec st0 level code details location originator depth)
  = m_pending st
    ++ entry (make_message env level code details location originator depth)
  /\ exists code',
      m_pending (Log env ec st0 level codename details location originator)
      = m_pending st
        ++ entry (make_message env level code' details location originator 3).
Proof.
  intros entry st0.
  assert (H : forall c d,
             m_pending (Log_code env ec st0 level c details location originator d)
             = m_pending st
               ++ entry (make_message env level c details location originator d)).
  { intros c d. unfold Log_code. rewrite dispatch_eq. cbn [m_pending].
    subst entry st0. cbv beta. unfold buffer_entry.
    cbn [m_levelFormats m_pending SetNIEnable SetStdoutEnable Logger.level
           make_message].
    destruct (m_levelFormats st !! level); [reflexivity|].
    now rewrite FormatParseable_fst. }
  split; [apply H|].
  unfold Log. destruct codename as [s|]; [destruct (negb _)|]; eexists; apply H.
Qed.

(** C10.  [Log] with a null codename does what [Log] with the code 0 does
    at the same level: it fails nowhere and adds one entry to the pending
    buffer. *)
Theorem Log_null_codename
    (env : Env) (ec : ErrorCodes.t) (st : Logger.t) (level : Z)
    (details : Str.t) (location : LogLocation.t) (originator : Str.t) :
  let msg := make_message env level 0 details location originator 3 in
  Log env ec st level None details location originator
  = Log_code env ec st level 0 details location originator 3
  /\ m_pending (Log env ec st level None details location originator)
     = m_pending st
       ++ match m_levelFormats st !! level with
          | Some formatter => formatter msg
          | None => fst (FormatParseable ec st msg)
          end.
Proof.
  intros msg. split; [reflexivity|].
  cbn [Log]. unfold Log_code. fold msg. rewrite dispatch_eq. cbn [m_pending].
  unfold buffer_entry. replace (Logger.level msg) with level by reflexivity.
  now rewrite FormatParseable_fst.
Qed.

End BufferEntry.

(** ** Levels without a name *)

Section UnknownLevels.

Import Logger.

(** C7, as stated, fails: a level may have a formatter and no name, and then
    the entry in the pending buffer is not the parseable record. *)
Lemma unnamed_level_with_formatter :
  ~ (forall env ec st level code details location originator depth,
        m_levels st !! level = None ->
        m_pending (Log_code env ec st level code details location originator depth)
        = m_pending st
          ++ fst (FormatParseable ec st
                    (make_message env level code details location originator depth))).
Proof.
  intros H.
  specialize (H Sample.env Sample.codes
                (AddFormatter Logger.init 42 Sample.code_only)
                42 0 "x" Sample.location [] 3 eq_refl).
  vm_compute in H. discriminate H.
Qed.

(** C7, amended.  At a level that has no entry in [m_levels], the second
    field of the parseable record is empty and the default line opens with
    ["[]"]; if the level has no entry in [m_levelFormats] either, [Log] uses
    these two formatters: the record goes to the pending buffer and, when the
    console path is taken, the default line goes to [std::cout]. *)
Theorem unknown_level_defaults
    (env : Env) (ec : ErrorCodes.t) (st : Logger.t) (level code : Z)
    (details : Str.t) (location : LogLocation.t) (originator : Str.t)
    (depth : Z) :
  m_levels st !! level = None ->
  let msg := make_message env level code details location originator depth in
  let st' := Log_code env ec st level code details location originator depth in
  fst (FormatParseable ec st msg)
  = escape_component (to_string level) ++ "," ++
    [] ++ "," ++
    escape_component (to_string code) ++ "," ++
    escape_component (ErrorCodes.Get ec code) ++ "," ++
    escape_component (LogLocation.to_std_string location) ++ "," ++
    escape_component (to_string (Z.quot (now env) 1000000)) ++ "," ++
    escape_component (GetStackTrace env depth) ++ "," ++
    escape_component originator ++ "," ++
    escape_component details ++ ";" ++ [newline]
  /\ fst (FormatDefault st msg)
     = take 511
         ("[]: From "
          ++ c_str (LogLocation.ShortFilename
                      (LogLocation.to_std_string location))
          ++ ": " ++ c_str details ++ [newline])
  /\ (m_levelFormats st !! level = None ->
      m_pending st' = m_pending st ++ fst (FormatParseable ec st msg)
      /\ cout st'
         = if negb (is_NILevel level) && m_usestdout st
           then cout st ++ fst (FormatDefault st msg) else cout st).
Proof.
  intros Hl msg st'.
  assert (Hn : level_name st level = []) by (unfold level_name; now rewrite Hl).
  rewrite FormatParseable_fst, FormatDefault_fst.
  replace (Logger.level msg) with level by reflexivity. rewrite Hn.
  split; [|split].
  - unfold parseable_record, fields. subst msg.
    cbn [make_message Logger.level Logger.code Logger.location
           Logger.timestamp Logger.stacktrace Logger.originatingObject
           Logger.details].
    rewrite Hn. cbn [List.map join]. rewrite <- !app_assoc. reflexivity.
  - reflexivity.
  - intros Hf. subst st'. unfold Log_code. fold msg. rewrite dispatch_eq.
    cbn [m_pending cout]. unfold buffer_entry, console_entry.
    replace (Logger.level msg) with level by reflexivity.
    now rewrite Hf, Hn.
Qed.

Lemma unknown_level_defaults_witness :
  m_pending (Log_code Sample.env Sample.codes Logger.init 42 0 "x"
               Sample.location "SensorX" 3)
  = "42,,0,,a.cpp:f:10,1234,at f,SensorX,x;" ++ [newline]
  /\ cout (Log_code Sample.env Sample.codes Logger.init 42 0 "x"
             Sample.location "SensorX" 3)
     = "[]: From a.cpp:f:10: x" ++ [newline].
Proof.
  destruct (unknown_level_defaults Sample.env Sample.codes Logger.init 42 0 "x"
              Sample.location "SensorX" 3 eq_refl) as (Hp & Hd & H).
  destruct (H eq_refl) as [-> ->]. rewrite Hp, Hd. split; reflexivity.
Defined.

End UnknownLevels.

(** ** The level registry *)

Section LevelRegistry.

Import Logger.

(** C8, as stated, fails: [AddLevel] at a level that has a name replaces the
    name. *)
Lemma AddLevel_renames :
  ~ (forall st level name l n,
        m_levels st !! l = Some n ->
        m_levels (AddLevel st level name) !! l = Some n).
Proof.
  intros H. specialize (H Logger.init kDEBUG "TRACE" 1 "DEBUG" eq_refl).
  vm_compute in H. discriminate H.
Qed.

(** C8, amended.  [AddLevel(level, name)] leaves every entry of the registry
    at another level as it was, the three seeded ones among them, and makes
    [name] the name of [level], in place of the name [level] had if it had
    one. *)
Theorem AddLevel_frame (st : Logger.t) (level : Z) (name : Str.t) (l : Z) (n : Str.t) :
  l <> level ->
  m_levels st !! l = Some n ->
  m_levels (AddLevel st level name) !! l = Some n
  /\ m_levels (AddLevel st level name) !! level = Some name.
Proof.
  intros Hne Hl. unfold AddLevel. cbn [m_levels set_levels]. split.
  - now rewrite lookup_insert_ne.
  - apply lookup_insert_eq.
Qed.

Lemma AddLevel_frame_witness :
  m_levels (AddLevel Logger.init 4 "TRACE") !! kWARNING = Some "WARNING"
  /\ m_levels (AddLevel Logger.init 4 "TRACE") !! 4 = Some "TRACE".
Proof.
  apply (AddLevel_frame Logger.init 4 "TRACE" kWARNING "WARNING").
  - unfold kWARNING. lia.
  - reflexivity.
Defined.

(** C9 fails on the code.  The object is built without an entry for level
    0, and one call of [Log] at level 0 puts one there, with an empty name:
    [FormatDefault] and [FormatParseable] read the name as [m_levels[level]],
    which inserts. *)
Lemma Log_at_level_0_enters_level_0 :
  m_levels Logger.init !! 0 = None
  /\ m_levels (Log_code Sample.env Sample.codes Logger.init 0 0 "x"
                 Sample.location [] 3) !! 0 = Some [].
Proof. split; reflexivity. Qed.

(** More generally, [Log] enters an empty name for every level it meets
    that has neither a name nor a formatter, and changes the registry in no
    other way. *)
Lemma Log_code_levels
    (env : Env) (ec : ErrorCodes.t) (st : Logger.t) (level code : Z)
    (details : Str.t) (location : LogLocation.t) (originator : Str.t)
    (depth : Z) (l : Z) :
  m_levels (Log_code env ec st level code details location originator depth) !! l
  = match m_levels st !! l with
    | Some n => Some n
    | None =>
        match m_levelFormats st !! level with
        | Some _ => None
        | None => if decide (level = l) then Some [] else None
        end
    end.
Proof.
  unfold Log_code. rewrite dispatch_eq. cbn [m_levels]. unfold levels_after.
  cbn [Logger.level make_message].
  destruct (m_levelFormats st !! level).
  - now destruct (m_levels st !! l).
  - apply map_index_snd_lookup.
Qed.

End LevelRegistry.

(** ** The examples of the specification *)

Section Scenarios.

Import Logger.

(** [Log(DEBUG, "Timeout", "connection lost", {"a.cpp", "f", 10},
    "SensorX")] on a fresh logger. *)
Example scenario_timeout :
  let st := Log Sample.env Sample.codes Logger.init kDEBUG
              (Some (Sample.name "Timeout")) "connection lost"
              Sample.location "SensorX" in
  m_pending st
  = "1,DEBUG,-6,A timeout has been exceeded,a.cpp:f:10,1234,at f,SensorX,connection lost;"
    ++ [newline]
  /\ cout st = "[DEBUG]: From a.cpp:f:10: connection lost" ++ [newline]
  /\ HAL_sent st = [].
Proof. repeat split; reflexivity. Qed.

(** A name registered under a code that was taken is not registered. *)
Example channel_index_not_registered :
  ErrorCodes.GetCode Sample.codes (Some (Sample.name "ChannelIndexOutOfRange")) = 0
  /\ ErrorCodes.Get Sample.codes (-1)
     = "Allocating module that is out of range or not found".
Proof. split; reflexivity. Qed.

Example escape_example :
  escape_component "a\b,c;d" = "a\\b\,c\;d"
  /\ unescape_component "a\\b\,c\;d" = "a\b,c;d".
Proof. split; reflexivity. Qed.

Example atoi_examples :
  atoi (atoi_overflow Sample.env) "  -42abc" = -42
  /\ atoi (atoi_overflow Sample.env) "Timeout" = 0
  /\ atoi (atoi_overflow Sample.env) "0" = 0
  /\ atoi (atoi_overflow Sample.env) "99999999999" = INT_MAX.
Proof. repeat split; reflexivity. Qed.

Example ShortFilename_examples :
  LogLocation.ShortFilename "/home/u/wpilibc/src/Logger.cpp:f:1"
  = "wpilibc/src/Logger.cpp:f:1"
  /\ LogLocation.ShortFilename "/home/u/src/robot/src/Main.cpp:f:1"
     = "src/Main.cpp:f:1"
  /\ LogLocation.ShortFilename "a.cpp:f:10" = "a.cpp:f:10".
Proof. repeat split; reflexivity. Qed.

(** With the console path enabled the run does write to [std::cout]: the two
    runs of [stdout_toggle_leaves_buffer] differ. *)
Example console_on_writes :
  cout (snd (run [CallLogCode Sample.env kDEBUG 0 "x" Sample.location [] 3]
               (Sample.codes, SetStdoutEnable Logger.init true)))
  = "[DEBUG]: From a.cpp:f:10: x" ++ [newline].
Proof. reflexivity. Qed.

End Scenarios.

(** * Further properties *)

(** ** [ErrorCodes] *)

Section ErrorCodesFacts.

Import ErrorCodes.

Implicit Types (ec : ErrorCodes.t) (calls : list add_call).

Lemma ctor_add_all literal : ctor literal = add_all (ctor_calls literal) empty_codes.
Proof.
  unfold ctor, add_all, ctor_calls, empty_codes.
  generalize {| m_codes := ∅; m_names := ∅ |}.
  induction table as [|[[name code] msg] l IH]; intros ec; [reflexivity|].
  cbn [fold_left List.map]. apply IH.
Qed.

(** [Add] with a code that is free: the call returns [true], the code has
    the message and the name, if there is one, has the code; every other code
    and every other name is as before. *)
Theorem Add_fresh ec code msg name :
  m_codes ec !! code = None ->
  let ec' := snd (Add ec code msg name) in
  fst (Add ec code msg name) = true
  /\ Get ec' code = msg
  /\ (name <> None -> GetCode ec' name = code)
  /\ (forall c, c <> code -> Get ec' c = Get ec c)
  /\ (forall p, ptr_value p <> ptr_value name -> GetCode ec' p = GetCode ec p).
Proof.
  intros Hfree ec'. subst ec'. unfold Add. rewrite Hfree. cbn [fst snd].
  unfold Get, GetCode. cbn [m_codes m_names]. repeat split.
  - now rewrite lookup_insert_eq.
  - intros Hn. destruct name as [s|]; [|congruence]. now rewrite lookup_insert_eq.
  - intros c Hc. now rewrite lookup_insert_ne.
  - intros p Hp. destruct name as [s|]; [|reflexivity].
    now rewrite lookup_insert_ne.
Qed.

Lemma Add_fresh_witness :
  fst (Add Sample.codes 100 "custom" (Some (Sample.name "Custom"))) = true
  /\ Get (snd (Add Sample.codes 100 "custom" (Some (Sample.name "Custom")))) 100
     = "custom"
  /\ GetCode (snd (Add Sample.codes 100 "custom" (Some (Sample.name "Custom"))))
       (Some (Sample.name "Custom")) = 100.
Proof.
  destruct (Add_fresh Sample.codes 100 "custom" (Some (Sample.name "Custom"))
              eq_refl) as (H1 & H2 & H3 & _).
  split; [exact H1|]. split; [exact H2|]. apply H3. discriminate.
Defined.

(** [Add] with a code that is taken: the call returns [false] and changes
    nothing; the name it was given is not registered. *)
Theorem Add_taken ec code msg name old :
  m_codes ec !! code = Some old ->
  Add ec code msg name = (false, ec)
  /\ Get (snd (Add ec code msg name)) code = old
  /\ GetCode (snd (Add ec code msg name)) name = GetCode ec name.
Proof.
  intros H. unfold Add. rewrite H. cbn [snd]. repeat split.
  unfold Get. now rewrite H.
Qed.

Lemma Add_taken_witness :
  Add Sample.codes (-6) "other" (Some (Sample.name "Other"))
  = (false, Sample.codes)
  /\ GetCode Sample.codes (Some (Sample.name "Other")) = 0.
Proof.
  destruct (Add_taken Sample.codes (-6) "other" (Some (Sample.name "Other"))
              "A timeout has been exceeded" eq_refl) as (H1 & _ & _).
  split; [exact H1 | reflexivity].
Defined.

Lemma add_all_cons c calls ec :
  add_all (c :: calls) ec
  = add_all calls (snd (Add ec (add_code c) (add_msg c) (add_name c))).
Proof. reflexivity. Qed.

(** The first message wins: after any sequence of calls of [Add], [Get]
    returns for a code the message the code had before the sequence, else the
    message of the first call made with the code, else the empty string. *)
Lemma Get_add_all calls ec code :
  Get (add_all calls ec) code
  = match m_codes ec !! code with
    | Some msg => msg
    | None =>
        match first_msg calls code with
        | Some msg => msg
        | None => []
        end
    end.
Proof.
  revert ec. induction calls as [|c calls IH]; intros ec.
  - cbn [add_all fold_left first_msg]. unfold Get. now destruct (m_codes ec !! code).
  - rewrite add_all_cons, IH. unfold Add. cbn [first_msg].
    destruct (m_codes ec !! add_code c) eqn:E; cbn [snd m_codes].
    + destruct (m_codes ec !! code) eqn:F; [reflexivity|].
      destruct (Z.eqb_spec (add_code c) code) as [<-|]; [congruence | reflexivity].
    + destruct (Z.eqb_spec (add_code c) code) as [<-|Hne].
      * now rewrite lookup_insert_eq, E.
      * now rewrite lookup_insert_ne.
Qed.

Lemma Add_names_have_codes ec code msg name :
  names_have_codes ec -> names_have_codes (snd (Add ec code msg name)).
Proof.
  intros H. unfold Add. destruct (m_codes ec !! code) eqn:E; [exact H|].
  cbn [snd]. intros p c. cbn [m_codes m_names]. intros Hp.
  destruct (decide (c = code)) as [->|Hc]; [rewrite lookup_insert_eq; eauto|].
  rewrite lookup_insert_ne by congruence. apply (H p).
  destruct name as [s|]; [|exact Hp].
  rewrite lookup_insert in Hp. destruct (decide _); [congruence | exact Hp].
Qed.

Lemma add_all_names_have_codes calls ec :
  names_have_codes ec -> names_have_codes (add_all calls ec).
Proof.
  revert ec. induction calls as [|c calls IH]; intros ec H; [exact H|].
  rewrite add_all_cons. apply IH. now apply Add_names_have_codes.
Qed.

(** In a registry built by calls of [Add], the constructor's among them, a
    name never leads to a code without a message: the code [GetCode] returns
    for a registered name is a key of [m_codes]. *)
Theorem GetCode_registered calls (p : char_ptr) code :
  m_names (add_all calls empty_codes) !! ptr_value p = Some code ->
  GetCode (add_all calls empty_codes) p = code
  /\ is_Some (m_codes (add_all calls empty_codes) !! code).
Proof.
  intros H. split.
  - unfold GetCode. now rewrite H.
  - apply (add_all_names_have_codes calls empty_codes) with (p := ptr_value p);
      [|exact H].
    intros q c Hq. cbn in Hq. now rewrite lookup_empty in Hq.
Qed.

Lemma GetCode_registered_witness :
  GetCode Sample.codes (Some (Sample.name "Timeout")) = -6
  /\ is_Some (m_codes Sample.codes !! (-6)).
Proof.
  unfold Sample.codes. rewrite ctor_add_all.
  apply (GetCode_registered (ctor_calls Sample.literal)
           (Some (Sample.name "Timeout")) (-6)).
  reflexivity.
Defined.

Lemma m_codes_add_all calls ec code :
  m_codes (add_all calls ec) !! code
  = match m_codes ec !! code with
    | Some msg => Some msg
    | None => first_msg calls code
    end.
Proof.
  revert ec. induction calls as [|c calls IH]; intros ec.
  - cbn [add_all fold_left first_msg]. now destruct (m_codes ec !! code).
  - rewrite add_all_cons, IH. unfold Add. cbn [first_msg].
    destruct (m_codes ec !! add_code c) eqn:E; cbn [snd m_codes].
    + destruct (m_codes ec !! code) eqn:F; [reflexivity|].
      destruct (Z.eqb_spec (add_code c) code) as [<-|]; [congruence | reflexivity].
    + destruct (Z.eqb_spec (add_code c) code) as [<-|Hne].
      * now rewrite lookup_insert_eq, E.
      * now rewrite lookup_insert_ne.
Qed.

(** Calls made with other names leave a name as it is. *)
Lemma m_names_add_all_other calls ec p :
  p ∉ List.map (fun c => ptr_value (add_name c)) calls ->
  m_names (add_all calls ec) !! p = m_names ec !! p.
Proof.
  revert ec. induction calls as [|c calls IH]; intros ec Hp; [reflexivity|].
  cbn [List.map] in Hp. apply not_elem_of_cons in Hp as [Hc Hp].
  rewrite add_all_cons, IH by exact Hp. unfold Add.
  destruct (m_codes ec !! add_code c); [reflexivity|]. cbn [snd m_names].
  destruct (add_name c) as [s|] eqn:E; [|reflexivity].
  now rewrite lookup_insert_ne by congruence.
Qed.

Lemma add_all_app l1 l2 ec : add_all (l1 ++ l2) ec = add_all l2 (add_all l1 ec).
Proof.
  apply fold_left_app.
Qed.

(** A name is registered by the call that passes it only if no earlier call
    took the code.  When the calls, made on an empty registry, pass names at
    different addresses, [GetCode] returns for the name of the [i]-th call the
    code of that call if no earlier call had the same code, and 0 if one
    had. *)
Lemma GetCode_add_all calls (i : nat) (c : add_call) (s : cstring) :
  NoDup (List.map (fun c => ptr_value (add_name c)) calls) ->
  calls !! i = Some c ->
  add_name c = Some s ->
  GetCode (add_all calls empty_codes) (Some s)
  = match first_msg (take i calls) (add_code c) with
    | Some _ => 0
    | None => add_code c
    end.
Proof.
  intros Hnd Hi Hs.
  pose proof (take_drop_middle calls i c Hi) as Hsplit.
  rewrite <- Hsplit in Hnd. rewrite List.map_app in Hnd. cbn [List.map] in Hnd.
  apply NoDup_app in Hnd as (Hnd1 & Hdisj & Hnd2).
  apply NoDup_cons in Hnd2 as [Hnot2 _].
  assert (Hnot1 : ptr_value (add_name c)
                  ∉ List.map (fun c => ptr_value (add_name c)) (take i calls)).
  { intros Hin. apply (Hdisj _ Hin). left. }
  rewrite Hs in Hnot1, Hnot2. cbn [ptr_value] in Hnot1, Hnot2.
  rewrite <- Hsplit at 1. rewrite add_all_app, add_all_cons.
  unfold GetCode. cbn [ptr_value].
  rewrite m_names_add_all_other by exact Hnot2.
  unfold Add. rewrite m_codes_add_all. cbn [empty_codes m_codes].
  rewrite lookup_empty.
  destruct (first_msg (take i calls) (add_code c)); cbn [snd m_names].
  - rewrite m_names_add_all_other by exact Hnot1. cbn. now rewrite lookup_empty.
  - rewrite Hs. cbn [ptr_value]. now rewrite lookup_insert_eq.
Qed.

(** A name gets its code only from a call whose code was free.  For calls
    made on an empty registry with names at different addresses, [GetCode]
    returns for the name of the [i]-th call the code of that call if no
    earlier call had the same code, and 0 if one had. *)
Theorem GetCode_after_calls calls (i : nat) (c : add_call) (s : cstring) :
  NoDup (List.map (fun c => ptr_value (add_name c)) calls) ->
  calls !! i = Some c ->
  add_name c = Some s ->
  GetCode (add_all calls empty_codes) (Some s)
  = match first_msg (take i calls) (add_code c) with
    | Some _ => 0
    | None => add_code c
    end.
Proof.
  apply GetCode_add_all.
Qed.

(** The first message wins: after any sequence of calls of [Add], [Get]
    returns for a code the message the code had before the sequence, else the
    message of the first call made with the code, else the empty string. *)
Theorem Get_first_message_wins calls ec code :
  Get (add_all calls ec) code
  = match m_codes ec !! code with
    | Some msg => msg
    | None =>
        match first_msg calls code with
        | Some msg => msg
        | None => []
        end
    end.
Proof.
  apply Get_add_all.
Qed.

Lemma GetCode_after_calls_witness :
  GetCode (add_all [(1, "one", Some (Sample.name "A"));
                    (1, "uno", Some (Sample.name "B"))] empty_codes)
    (Some (Sample.name "B")) = 0.
Proof.
  apply (GetCode_after_calls
           [(1, "one", Some (Sample.name "A")); (1, "uno", Some (Sample.name "B"))]
           1%nat (1, "uno", Some (Sample.name "B")) (Sample.name "B")).
  - apply (bool_decide_unpack _). vm_compute. exact I.
  - reflexivity.
  - reflexivity.
Defined.

Lemma lookup_map {A B} (f : A -> B) (l : list A) (i : nat) :
  List.map f l !! i = f <$> (l !! i).
Proof.
  revert i; induction l as [|x l IH]; intros [|i]; cbn; auto.
Qed.

Lemma ctor_entries_ok literal :
  forallb (ctor_entry_ok literal) (seq 0 (length table)) = true.
Proof. vm_compute. reflexivity. Qed.

(** What the constructor registers.  Let the linker put the names of the
    table at different addresses.  Then every name of the table leads to its
    code and the code to its message, but for [ChannelIndexOutOfRange] and
    [SmartDashboardMissingKey]: the codes -1 and -43 were taken when their
    entries came, so [GetCode] returns 0 for these two names. *)
Theorem ctor_registers (literal : Str.t -> Z) name code msg :
  NoDup (List.map (fun e => literal (fst (fst e))) table) ->
  (name, code, msg) ∈ table ->
  if bool_decide (name ∈ shadowed_names)
  then GetCode (ctor literal) (name_literal literal name) = 0
  else GetCode (ctor literal) (name_literal literal name) = code
       /\ Get (ctor literal) code = msg.
Proof.
  intros Hnd Hin. apply list_elem_of_lookup in Hin as [i Hi].
  assert (Hlt : (i < length table)%nat) by (eapply lookup_lt_Some; eauto).
  pose proof (ctor_entries_ok literal) as Hall.
  rewrite forallb_forall in Hall.
  specialize (Hall i). rewrite in_seq in Hall.
  specialize (Hall (conj (Nat.le_0_l i) Hlt)).
  unfold ctor_entry_ok in Hall. rewrite Hi in Hall.
  assert (Hi' : ctor_calls literal !! i
                = Some (code, msg, name_literal literal name)).
  { unfold ctor_calls. now rewrite lookup_map, Hi. }
  assert (Hnd' : NoDup (List.map (fun c => ptr_value (add_name c))
                          (ctor_calls literal))).
  { unfold ctor_calls. rewrite List.map_map.
    erewrite List.map_ext; [exact Hnd|]. now intros [[n c] m]. }
  rewrite ctor_add_all. unfold name_literal in *.
  rewrite (GetCode_add_all _ i _ _ Hnd' Hi' eq_refl), Get_add_all.
  cbn [empty_codes m_codes add_code fst]. rewrite lookup_empty.
  destruct (first_msg (take i (ctor_calls literal)) code).
  - now rewrite Hall.
  - apply andb_prop in Hall as [Hs Hm]. apply negb_true_iff in Hs.
    rewrite Hs. apply bool_decide_eq_true in Hm. now rewrite Hm.
Qed.

Lemma ctor_registers_witness :
  GetCode Sample.codes (Some (Sample.name "ChannelIndexOutOfRange")) = 0
  /\ GetCode Sample.codes (Some (Sample.name "IncompatibleState")) = 15.
Proof.
  split.
  - apply (ctor_registers Sample.literal "ChannelIndexOutOfRange" (-1)
             "Allocating channel that is out of range").
    + apply (bool_decide_unpack _). vm_compute. exact I.
    + apply (bool_decide_unpack _). vm_compute. exact I.
  - apply (ctor_registers Sample.literal "IncompatibleState" 15
             "Incompatible State: The operation cannot be completed").
    + apply (bool_decide_unpack _). vm_compute. exact I.
    + apply (bool_decide_unpack _). vm_compute. exact I.
Defined.

End ErrorCodesFacts.

(** ** [atoi] and the codename *)

Section AtoiFacts.

Import Logger.

Lemma digits_value_acc (d : Decimal.uint) (p : positive) :
  digits_value (Zpos p) (list_ascii_of_string (NilEmpty.string_of_uint d))
  = Zpos (Pos.of_uint_acc d p).
Proof.
  revert p; induction d; intros p;
    cbn [NilEmpty.string_of_uint list_ascii_of_string digits_value
           Pos.of_uint_acc];
    [reflexivity | ..];
    match goal with
    | |- context [isdigit ?c] =>
        replace (isdigit c) with true by reflexivity
    end;
    match goal with
    | |- context [Z.of_nat (nat_of_ascii ?c)] =>
        let v := eval vm_compute in (Z.of_nat (nat_of_ascii c)) in
        change (Z.of_nat (nat_of_ascii c)) with v
    end;
    match goal with
    | |- digits_value ?a _ = Zpos (Pos.of_uint_acc _ ?q) =>
        replace a with (Zpos q) by lia
    end;
    apply IHd.
Qed.

Lemma digits_value_uint (d : Decimal.uint) :
  digits_value 0 (list_ascii_of_string (NilEmpty.string_of_uint d))
  = Z.of_N (Pos.of_uint d).
Proof.
  induction d;
    cbn [NilEmpty.string_of_uint list_ascii_of_string digits_value Pos.of_uint];
    [reflexivity | ..];
    match goal with
    | |- context [isdigit ?c] =>
        replace (isdigit c) with true by reflexivity
    end;
    [exact IHd | ..];
    cbn [Z.of_N]; rewrite <- digits_value_acc; reflexivity.
Qed.

(** The decimal numeral of a positive number opens with a digit that [atoi]
    takes neither for white space nor for a sign. *)
Lemma atoi_value_uint (d : Decimal.uint) :
  d <> Decimal.Nil ->
  atoi_value (list_ascii_of_string (NilEmpty.string_of_uint d))
  = Z.of_N (Pos.of_uint d).
Proof.
  intros Hd. rewrite <- digits_value_uint.
  destruct d; [congruence | ..]; reflexivity.
Qed.

Lemma to_uint_not_Nil (p : positive) : Pos.to_uint p <> Decimal.Nil.
Proof.
  intros H. pose proof (DecimalPos.Unsigned.of_to p) as E.
  rewrite H in E. discriminate E.
Qed.

Lemma atoi_value_to_string (n : Z) : atoi_value (to_string n) = n.
Proof.
  unfold to_string. destruct n as [|p|p]; [reflexivity | |].
  - cbn [Z.to_int NilZero.string_of_int]. unfold NilZero.string_of_uint.
    pose proof (to_uint_not_Nil p) as Hp.
    destruct (Pos.to_uint p) eqn:E; [congruence | ..];
      rewrite <- E in *; rewrite atoi_value_uint by exact Hp;
      now rewrite DecimalPos.Unsigned.of_to.
  - cbn [Z.to_int NilZero.string_of_int list_ascii_of_string].
    unfold atoi_value. cbn [skip_spaces].
    replace (isspace "-") with false by reflexivity.
    replace (Ascii.eqb "-" "-") with true by reflexivity.
    unfold NilZero.string_of_uint.
    pose proof (to_uint_not_Nil p) as Hp.
    destruct (Pos.to_uint p) eqn:E; [congruence | ..];
      rewrite <- E in *; rewrite digits_value_uint;
      now rewrite DecimalPos.Unsigned.of_to.
Qed.

(** [atoi] reads back what [std::to_string] wrote: for every [int] [n],
    [atoi(to_string(n))] is [n].  So a codename that is the numeral of a
    number other than 0, as [LOG_ERRNO(level, 100, msg)] passes, makes [Log]
    use this number as the code. *)
Theorem atoi_to_string
    (env : Env) (ec : ErrorCodes.t) (st : Logger.t) (level : Z) (n : Z)
    (codename : cstring) (details : Str.t) (location : LogLocation.t)
    (originator : Str.t) :
  INT_MIN <= n <= INT_MAX ->
  c_chars codename = to_string n ->
  atoi (atoi_overflow env) (to_string n) = n
  /\ (n <> 0 ->
      Log env ec st level (Some codename) details location originator
      = Log_code env ec st level n details location originator 3).
Proof.
  intros Hn Hc.
  assert (Ha : atoi (atoi_overflow env) (to_string n) = n).
  { unfold atoi. rewrite atoi_value_to_string.
    destruct (Z.leb_spec INT_MIN n); [|lia].
    destruct (Z.leb_spec n INT_MAX); [reflexivity | lia]. }
  split; [exact Ha|]. intros Hne. unfold Log. rewrite Hc, Ha.
  now destruct (Z.eqb_spec n 0).
Qed.

Lemma atoi_to_string_witness :
  Log Sample.env Sample.codes Logger.init kDEBUG (Some (Sample.name "100"))
    "x" Sample.location []
  = Log_code Sample.env Sample.codes Logger.init kDEBUG 100 "x"
      Sample.location [] 3.
Proof.
  apply (atoi_to_string Sample.env Sample.codes Logger.init kDEBUG 100
           (Sample.name "100") "x" Sample.location []).
  - unfold INT_MIN, INT_MAX. lia.
  - reflexivity.
  - discriminate.
Defined.

(** A codename that opens with a letter or an underscore, as every C++
    identifier does, is never taken for a number: [atoi] returns 0 and [Log]
    asks the registry. *)
Theorem Log_identifier_codename
    (env : Env) (ec : ErrorCodes.t) (st : Logger.t) (level : Z)
    (codename : cstring) (c : ascii) (rest : Str.t) (details : Str.t)
    (location : LogLocation.t) (originator : Str.t) :
  c_chars codename = c :: rest ->
  is_ident_start c = true ->
  atoi (atoi_overflow env) (c_chars codename) = 0
  /\ Log env ec st level (Some codename) details location originator
     = Log_code env ec st level (ErrorCodes.GetCode ec (Some codename))
         details location originator 3.
Proof.
  intros Hc Hi.
  assert (Ha : atoi (atoi_overflow env) (c_chars codename) = 0).
  { assert (Hn : (65 <= nat_of_ascii c <= 90
                  \/ 97 <= nat_of_ascii c <= 122
                  \/ nat_of_ascii c = 95)%nat).
    { unfold is_ident_start in Hi.
      rewrite !orb_true_iff, !andb_true_iff, !Nat.leb_le, Nat.eqb_eq in Hi.
      lia. }
    assert (Hs : isspace c = false).
    { unfold isspace.
      destruct (Nat.eqb_spec (nat_of_ascii c) 32),
        (Nat.leb_spec 9 (nat_of_ascii c)), (Nat.leb_spec (nat_of_ascii c) 13);
        cbn; try reflexivity; lia. }
    assert (Hd : isdigit c = false).
    { unfold isdigit.
      destruct (Nat.leb_spec 48 (nat_of_ascii c)),
        (Nat.leb_spec (nat_of_ascii c) 57); cbn; try reflexivity; lia. }
    assert (Hm : Ascii.eqb c "-" = false).
    { apply Ascii.eqb_neq. intros ->. vm_compute in Hn. lia. }
    assert (Hp : Ascii.eqb c "+" = false).
    { apply Ascii.eqb_neq. intros ->. vm_compute in Hn. lia. }
    rewrite Hc. unfold atoi, atoi_value. cbn [skip_spaces].
    rewrite Hs, Hm, Hp. cbn [digits_value]. rewrite Hd. reflexivity. }
  split; [exact Ha|]. unfold Log. now rewrite Ha.
Qed.

Lemma Log_identifier_codename_witness :
  atoi (atoi_overflow Sample.env) (c_chars (Sample.name "Timeout")) = 0
  /\ Log Sample.env Sample.codes Logger.init kDEBUG
       (Some (Sample.name "Timeout")) "x" Sample.location []
     = Log_code Sample.env Sample.codes Logger.init kDEBUG (-6) "x"
         Sample.location [] 3.
Proof.
  apply (Log_identifier_codename Sample.env Sample.codes Logger.init kDEBUG
           (Sample.name "Timeout") "T" "imeout" "x" Sample.location []);
    reflexivity.
Defined.

End AtoiFacts.

(** ** [LogLocation::ShortFilename] *)

Section ShortFilenameFacts.

Implicit Types pat s name : Str.t.

(** [find_first] returns the first offset at which the pattern occurs. *)
Lemma find_first_spec pat s :
  match find_first pat s with
  | Some k =>
      (k <= length s)%nat
      /\ starts_with pat (drop k s) = true
      /\ forall j, (j < k)%nat -> starts_with pat (drop j s) = false
  | None => forall j, starts_with pat (drop j s) = false
  end.
Proof.
  induction s as [|c s IH].
  - cbn [find_first]. destruct (starts_with pat []) eqn:E.
    + split; [cbn; lia|]. split; [exact E | intros j Hj; lia].
    + intros j. now rewrite drop_nil.
  - cbn [find_first]. destruct (starts_with pat (c :: s)) eqn:E.
    + split; [cbn; lia|]. split; [exact E | intros j Hj; lia].
    + destruct (find_first pat s) as [k|]; cbn [option_map].
      * destruct IH as (Hk & Hm & Hlt).
        split; [cbn; lia|]. split; [exact Hm|].
        intros [|j] Hj; [exact E|]. apply Hlt. lia.
      * intros [|j]; [exact E | apply IH].
Qed.

(** [find_last] returns the last offset at which the pattern occurs. *)
Lemma find_last_spec pat s :
  match find_last pat s with
  | Some k =>
      (k <= length s)%nat
      /\ starts_with pat (drop k s) = true
      /\ forall j, (k < j <= length s)%nat -> starts_with pat (drop j s) = false
  | None => forall j, starts_with pat (drop j s) = false
  end.
Proof.
  induction s as [|c s IH].
  - cbn [find_last]. destruct (starts_with pat []) eqn:E.
    + split; [cbn; lia|]. split; [exact E | cbn; intros j Hj; lia].
    + intros j. now rewrite drop_nil.
  - cbn [find_last]. destruct (find_last pat s) as [k|].
    + destruct IH as (Hk & Hm & Hgt).
      split; [cbn; lia|]. split; [exact Hm|].
      intros [|j] Hj; [lia|]. apply Hgt. cbn in Hj. lia.
    + destruct (starts_with pat (c :: s)) eqn:E.
      * split; [cbn; lia|]. split; [exact E|].
        intros [|j] Hj; [lia | apply IH].
      * intros [|j]; [exact E | apply IH].
Qed.

Lemma find_first_here pat s :
  starts_with pat s = true -> find_first pat s = Some 0%nat.
Proof. intros H. destruct s; cbn [find_first]; now rewrite H. Qed.

Lemma find_first_absent pat s :
  (forall j, starts_with pat (drop j s) = false) -> find_first pat s = None.
Proof.
  intros H. pose proof (find_first_spec pat s) as Hs.
  destruct (find_first pat s) as [k|]; [|reflexivity].
  destruct Hs as (_ & Hm & _). now rewrite H in Hm.
Qed.

Lemma find_last_here pat s :
  starts_with pat s = true ->
  (forall j, (0 < j <= length s)%nat -> starts_with pat (drop j s) = false) ->
  find_last pat s = Some 0%nat.
Proof.
  intros H0 Hgt. pose proof (find_last_spec pat s) as Hs.
  destruct (find_last pat s) as [k|].
  - destruct Hs as (Hk & Hm & _). destruct k as [|k]; [reflexivity|].
    rewrite Hgt in Hm by lia. discriminate.
  - specialize (Hs 0%nat). rewrite drop_0 in Hs. now rewrite H0 in Hs.
Qed.

Lemma find_0 s pat : Str.find s pat 0 = find_first pat s.
Proof.
  unfold Str.find. rewrite drop_0. cbn [Nat.leb].
  now destruct (find_first pat s).
Qed.

Lemma ShortFilename_split name :
  exists k : nat,
    (k <= length name)%nat
    /\ LogLocation.ShortFilename name = drop k name
    /\ ((starts_with "wpilib" (drop k name) = true
         /\ forall j, (j < k)%nat -> starts_with "wpilib" (drop j name) = false)
        \/ ((forall j, starts_with "wpilib" (drop j name) = false)
            /\ starts_with "src" (drop k name) = true
            /\ forall j, (k < j <= length name)%nat ->
                         starts_with "src" (drop j name) = false)
        \/ ((forall j, starts_with "wpilib" (drop j name) = false)
            /\ (forall j, starts_with "src" (drop j name) = false)
            /\ k = 0%nat)).
Proof.
  unfold LogLocation.ShortFilename, Str.rfind. rewrite find_0.
  pose proof (find_first_spec "wpilib" name) as Hw.
  destruct (find_first "wpilib" name) as [k|].
  - destruct Hw as (Hk & Hm & Hlt). exists k. auto.
  - pose proof (find_last_spec "src" name) as Hs.
    destruct (find_last "src" name) as [k|].
    + destruct Hs as (Hk & Hm & Hgt). exists k. auto 7.
    + exists 0%nat. repeat split; [lia|]. right. right. auto.
Qed.

(** What [ShortFilename] returns.  If ["wpilib"] occurs in [name], the rest
    of [name] from its first occurrence on; if it does not and ["src"] occurs,
    the rest from the last occurrence of ["src"] on; if neither occurs,
    [name].  In every case the result is the end of [name] from some offset
    on. *)
Theorem ShortFilename_cases name :
  exists k : nat,
    (k <= length name)%nat
    /\ LogLocation.ShortFilename name = drop k name
    /\ ((starts_with "wpilib" (drop k name) = true
         /\ forall j, (j < k)%nat -> starts_with "wpilib" (drop j name) = false)
        \/ ((forall j, starts_with "wpilib" (drop j name) = false)
            /\ starts_with "src" (drop k name) = true
            /\ forall j, (k < j <= length name)%nat ->
                         starts_with "src" (drop j name) = false)
        \/ ((forall j, starts_with "wpilib" (drop j name) = false)
            /\ (forall j, starts_with "src" (drop j name) = false)
            /\ k = 0%nat)).
Proof.
  apply ShortFilename_split.
Qed.

(** [ShortFilename] shortens once: applied to its own result it changes
    nothing. *)
Theorem ShortFilename_idempotent name :
  LogLocation.ShortFilename (LogLocation.ShortFilename name)
  = LogLocation.ShortFilename name.
Proof.
  destruct (ShortFilename_split name) as (k & Hk & -> & [H|[H|H]]).
  - destruct H as [Hm _]. unfold LogLocation.ShortFilename. rewrite find_0.
    now rewrite (find_first_here _ _ Hm).
  - destruct H as (Hw & Hm & Hgt). unfold LogLocation.ShortFilename, Str.rfind.
    rewrite find_0, find_first_absent.
    + rewrite find_last_here; [reflexivity | exact Hm |].
      intros j Hj. rewrite drop_drop. apply Hgt.
      rewrite length_drop in Hj. lia.
    + intros j. rewrite drop_drop. apply Hw.
  - destruct H as (Hw & Hs & ->). rewrite drop_0.
    unfold LogLocation.ShortFilename, Str.rfind.
    rewrite find_0, (find_first_absent _ _ Hw).
    pose proof (find_last_spec "src" name) as Hl.
    destruct (find_last "src" name) as [k|]; [|reflexivity].
    destruct Hl as (_ & Hm & _). now rewrite Hs in Hm.
Qed.

End ShortFilenameFacts.

(** ** The default formatter *)

Section FormatDefaultFacts.

Import Logger.

Lemma c_str_no_NUL (s : Str.t) : Forall (fun c => c <> NUL) (c_str s).
Proof.
  induction s as [|c s IH]; cbn [c_str]; [constructor|].
  destruct (Ascii.eqb_spec c NUL); constructor; auto.
Qed.

Lemma c_str_id (s : Str.t) : Forall (fun c => c <> NUL) s -> c_str s = s.
Proof.
  induction 1 as [|c s Hc _ IH]; cbn [c_str]; [reflexivity|].
  destruct (Ascii.eqb_spec c NUL); [contradiction | now rewrite IH].
Qed.

(** The line of [FormatDefault] never has more than 511 characters and
    never holds a NUL.  It ends with a newline when the level name, the short
    file name and the details (each read up to its first NUL) have room in 511
    characters with the 12 characters around them; when they have not, the
    line is cut at 511 characters and the newline is lost with the rest. *)
Theorem FormatDefault_bounds (st : Logger.t) (msg : LogMessage) :
  let line := fst (FormatDefault st msg) in
  let room :=
    (length (c_str (level_name st (level msg)))
     + length (c_str (LogLocation.ShortFilename
                        (LogLocation.to_std_string (location msg))))
     + length (c_str (details msg)) + 12)%nat in
  (length line <= 511)%nat
  /\ Forall (fun c => c <> NUL) line
  /\ if (room <=? 511)%nat
     then length line = room /\ last line = Some newline
     else length line = 511%nat.
Proof.
  intros line room. subst line. rewrite FormatDefault_fst. unfold default_line.
  set (full := "[" ++ _).
  assert (Hlen : length full = room).
  { subst full room. rewrite !length_app. cbn [length]. lia. }
  split; [rewrite length_take; lia|]. split.
  - apply Forall_take. subst full.
    repeat (apply Forall_app; split); try apply c_str_no_NUL;
      repeat constructor; discriminate.
  - destruct (Nat.leb_spec room 511) as [Hr|Hr].
    + rewrite take_ge by lia. split; [exact Hlen|].
      subst full. rewrite !app_assoc. apply last_snoc.
    + rewrite length_take. lia.
Qed.

End FormatDefaultFacts.

(** ** What [Log] leaves alone and how it composes with the setters *)

Section LogFrame.

Import Logger.

Implicit Types (st : Logger.t) (ec : ErrorCodes.t) (msg : LogMessage).

Lemma dispatch_only_appends ec st msg :
  let st' := dispatch ec st msg in
  m_levelFormats st' = m_levelFormats st
  /\ m_usestdout st' = m_usestdout st
  /\ m_useNI st' = m_useNI st
  /\ (forall l n, m_levels st !! l = Some n -> m_levels st' !! l = Some n)
  /\ m_pending st `prefix_of` m_pending st'
  /\ cout st `prefix_of` cout st'
  /\ HAL_sent st `prefix_of` HAL_sent st'.
Proof.
  intros st'. subst st'. rewrite dispatch_eq.
  cbn [m_levelFormats m_usestdout m_useNI m_levels m_pending cout HAL_sent].
  repeat split.
  - intros l n Hl. unfold levels_after.
    destruct (m_levelFormats st !! level msg); [exact Hl|].
    rewrite map_index_snd_lookup. now rewrite Hl.
  - apply prefix_app_r. reflexivity.
  - destruct (_ && _); [apply prefix_app_r|]; reflexivity.
  - destruct (_ && _); [apply prefix_app_r|]; reflexivity.
Qed.

(** [Log] only adds.  A call of either overload changes no formatter and
    neither toggle, keeps every level name that is registered, and leaves
    what was in the pending buffer, on [std::cout] and among the calls of
    [HALSendError] as the beginning of what is there afterwards. *)
Theorem Log_only_appends
    (env : Env) ec st (level code : Z) (codename : char_ptr)
    (details : Str.t) (location : LogLocation.t) (originator : Str.t)
    (depth : Z) (st' : Logger.t) :
  st' = Log env ec st level codename details location originator
  \/ st' = Log_code env ec st level code details location originator depth ->
  m_levelFormats st' = m_levelFormats st
  /\ m_usestdout st' = m_usestdout st
  /\ m_useNI st' = m_useNI st
  /\ (forall l n, m_levels st !! l = Some n -> m_levels st' !! l = Some n)
  /\ m_pending st `prefix_of` m_pending st'
  /\ cout st `prefix_of` cout st'
  /\ HAL_sent st `prefix_of` HAL_sent st'.
Proof.
  intros [-> | ->].
  - unfold Log, Log_code. destruct codename as [s|]; [destruct (negb _)|];
      apply dispatch_only_appends.
  - apply dispatch_only_appends.
Qed.

Lemma Log_only_appends_witness :
  m_levels (Log Sample.env Sample.codes Logger.init 7
              (Some (Sample.name "Timeout")) "x" Sample.location [])
    !! kDEBUG = Some "DEBUG".
Proof.
  apply (Log_only_appends Sample.env Sample.codes Logger.init 7 0
           (Some (Sample.name "Timeout")) "x" Sample.location [] 3 _
           (or_introl eq_refl)).
  reflexivity.
Defined.

(** A formatter overrides both default formatters.  After
    [AddFormatter(level, f)], [Log] at [level] adds [f(msg)] to the pending
    buffer, writes [f(msg)] to [std::cout] when it takes the console path,
    and does not touch the level registry, whatever was registered for
    [level] before. *)
Theorem AddFormatter_overrides
    (env : Env) ec st (level code : Z) (f : FormatLogFunc)
    (details : Str.t) (location : LogLocation.t) (originator : Str.t)
    (depth : Z) :
  let msg := make_message env level code details location originator depth in
  let st' := Log_code env ec (AddFormatter st level f) level code details
               location originator depth in
  m_pending st' = m_pending st ++ f msg
  /\ cout st' = (if negb (is_NILevel level) && m_usestdout st
                 then cout st ++ f msg else cout st)
  /\ m_levels st' = m_levels st.
Proof.
  intros msg st'. subst st'. unfold Log_code. fold msg. rewrite dispatch_eq.
  cbn [m_pending cout m_levels]. unfold buffer_entry, console_entry, levels_after.
  replace (Logger.level msg) with level by reflexivity.
  cbn [AddFormatter m_levelFormats m_pending cout m_usestdout m_levels].
  now rewrite lookup_insert_eq.
Qed.

(** Setters for one level commute with [Log] at another level: whether
    [AddLevel(level, name)] or [AddFormatter(level, f)] is called before or
    after a call of [Log] at a different level, the logger ends in the same
    state and the same text has been written. *)
Theorem setters_commute_with_Log
    (env : Env) ec st (level l code : Z) (name : Str.t) (f : FormatLogFunc)
    (details : Str.t) (location : LogLocation.t) (originator : Str.t)
    (depth : Z) :
  l <> level ->
  Log_code env ec (AddLevel st level name) l code details location
    originator depth
  = AddLevel (Log_code env ec st l code details location originator depth)
      level name
  /\ Log_code env ec (AddFormatter st level f) l code details location
       originator depth
     = AddFormatter
         (Log_code env ec st l code details location originator depth)
         level f.
Proof.
  intros Hne. unfold Log_code.
  set (msg := make_message env l code details location originator depth).
  rewrite !dispatch_eq.
  unfold AddLevel, AddFormatter, set_levels, levels_after, buffer_entry,
    console_entry, parseable_record, fields, level_name.
  replace (Logger.level msg) with l by reflexivity.
  cbn [m_levels m_levelFormats m_usestdout m_useNI m_pending cout HAL_sent].
  rewrite !lookup_insert_ne by congruence. split; f_equal.
  destruct (m_levelFormats st !! l); [reflexivity|].
  unfold map_index. rewrite lookup_insert_ne by congruence.
  destruct (m_levels st !! l); cbn [snd]; [reflexivity|].
  apply insert_insert_ne. congruence.
Qed.

Lemma setters_commute_with_Log_witness :
  Log_code Sample.env Sample.codes (AddLevel Logger.init 4 "TRACE") 1 0 "x"
    Sample.location [] 3
  = AddLevel (Log_code Sample.env Sample.codes Logger.init 1 0 "x"
                Sample.location [] 3) 4 "TRACE".
Proof.
  apply (setters_commute_with_Log Sample.env Sample.codes Logger.init 4 1 0
           "TRACE" Sample.code_only "x" Sample.location [] 3).
  lia.
Defined.

End LogFrame.

(** ** More on [FindAndReplace] and on escaping *)

Section EscapingFacts.

Import Logger.

(** [FindAndReplace] returns for every pattern that is not empty, also when
    the replacement holds the pattern (as ["\\"] holds ["\"]): the loop leaves
    after at most one iteration for each character of [source] and one more,
    and what it leaves in [source] is the result of one pass from left to
    right that never looks into a replacement. *)
Theorem FindAndReplace_returns (source find replace : Str.t) (fuel : nat) :
  find <> [] ->
  (length source < fuel)%nat ->
  FindAndReplace_loop fuel source find replace 0
  = Some (FindAndReplace source find replace)
  /\ FindAndReplace source find replace = replace_scan find replace 0 source.
Proof.
  intros Hne Hfuel. rewrite FindAndReplace_scan by exact Hne. split; [|reflexivity].
  now rewrite (FindAndReplace_loop_scan find replace fuel Hne source 0%nat) by lia.
Qed.

Lemma FindAndReplace_returns_witness :
  FindAndReplace_loop 4 "a\b" "\" "\\" 0 = Some "a\\b".
Proof.
  apply (FindAndReplace_returns "a\b" "\" "\\" 4); [discriminate | cbn; lia].
Defined.

(** With an empty pattern [FindAndReplace] does not return: the pattern is
    found at every position, so the loop has not left after any number of
    iterations. *)
Theorem FindAndReplace_empty_pattern (source replace : Str.t) (fuel : nat) :
  FindAndReplace_loop fuel source [] replace 0 = None.
Proof.
  apply FindAndReplace_loop_empty_find. lia.
Qed.

Lemma escape_char_length (c : ascii) :
  length (escape_char c) = if is_special c then 2%nat else 1%nat.
Proof. unfold escape_char, is_special. now destruct (_ || _). Qed.

(** Escaping adds one character for each backslash, comma and semicolon and
    nothing else: the escaped string is longer by the number of these
    characters, and it is the string itself exactly when there is none. *)
Theorem escape_component_length (s : Str.t) :
  length (escape_component s)
  = (length s + length (List.filter is_special s))%nat
  /\ (escape_component s = s <-> List.filter is_special s = []).
Proof.
  rewrite escape_component_chars.
  assert (Hlen : length (flat_map escape_char s)
                 = (length s + length (List.filter is_special s))%nat).
  { induction s as [|c s IH]; [reflexivity|].
    cbn [flat_map List.filter]. rewrite length_app, escape_char_length, IH.
    destruct (is_special c); cbn [length]; lia. }
  split; [exact Hlen|]. split.
  - intros E. rewrite E in Hlen.
    destruct (List.filter is_special s); [reflexivity | cbn in Hlen; lia].
  - clear Hlen. intros E. induction s as [|c s IH]; [reflexivity|].
    cbn [List.filter flat_map] in *. unfold escape_char at 1.
    fold (is_special c). destruct (is_special c); [discriminate|].
    cbn [app]. now rewrite IH.
Qed.

(** The record can be read back.  A reader that ends a field at a comma no
    backslash has taken, and the record at such a semicolon, finds in the
    record of [FormatParseable] the nine fields of the message, character for
    character, and the newline after them. *)
Theorem parseable_record_read_back
    (ec : ErrorCodes.t) (st : Logger.t) (msg : LogMessage) :
  read_record (fst (FormatParseable ec st msg))
  = Some ([ to_string (level msg);
            level_name st (level msg);
            to_string (code msg);
            ErrorCodes.Get ec (code msg);
            LogLocation.to_std_string (location msg);
            to_string (Z.quot (timestamp msg) 1000000);
            stacktrace msg;
            originatingObject msg;
            details msg ],
          [newline]).
Proof.
  apply FormatParseable_read_back.
Qed.

End EscapingFacts.

(** ** The pending buffer, read back *)

Section BufferReadBack.

Import Logger.

Implicit Types (st : Logger.t) (ec : ErrorCodes.t) (msg : LogMessage).

Lemma level_name_dispatch ec st msg l :
  level_name (dispatch ec st msg) l = level_name st l.
Proof.
  rewrite dispatch_eq. unfold level_name, levels_after. cbn [m_levels].
  destruct (m_levelFormats st !! level msg); [reflexivity|].
  rewrite map_index_snd_lookup.
  destruct (m_levels st !! l); [reflexivity|]. now destruct (decide _).
Qed.

Lemma log_all_pending ec msgs :
  forall st,
    Forall (fun msg => m_levelFormats st !! level msg = None) msgs ->
    m_pending (log_all ec st msgs)
    = m_pending st ++ concat (List.map (parseable_record ec st) msgs).
Proof.
  induction msgs as [|msg msgs IH]; intros st Hf.
  - cbn. now rewrite app_nil_r.
  - apply Forall_cons in Hf as [Hm Hf]. unfold log_all in *. cbn [fold_left].
    rewrite IH.
    + rewrite dispatch_eq at 1. cbn [m_pending]. unfold buffer_entry.
      rewrite Hm. cbn [List.map concat]. rewrite <- app_assoc. do 2 f_equal.
      f_equal. apply List.map_ext. intros m. apply parseable_record_ext.
      apply level_name_dispatch.
    + rewrite dispatch_eq. cbn [m_levelFormats]. exact Hf.
Qed.

Lemma read_record_parseable ec st msg rest :
  read_record (parseable_record ec st msg ++ rest)
  = Some (fields ec st msg, newline :: rest).
Proof.
  unfold parseable_record, read_record. rewrite <- app_assoc. cbn [app].
  rewrite split_record_join by discriminate.
  rewrite List.map_map. f_equal. f_equal.
  rewrite <- (List.map_id (fields ec st msg)) at 2.
  apply List.map_ext. apply unescape_escape_component.
Qed.

Lemma read_buffer_records ec st msgs fuel :
  (length msgs <= fuel)%nat ->
  read_buffer fuel (concat (List.map (parseable_record ec st) msgs))
  = Some (List.map (fields ec st) msgs).
Proof.
  revert fuel. induction msgs as [|msg msgs IH]; intros fuel Hfuel.
  - now destruct fuel.
  - cbn [List.map concat].
    destruct fuel as [|fuel]; [cbn in Hfuel; lia|].
    assert (Hne : exists c s, parseable_record ec st msg
                              ++ concat (List.map (parseable_record ec st) msgs)
                              = c :: s).
    { unfold parseable_record.
      destruct (join _); cbn; eauto. }
    destruct Hne as (c & s & Hcs).
    cbn [read_buffer]. rewrite Hcs. rewrite <- Hcs.
    rewrite read_record_parseable.
    replace (Ascii.eqb newline newline) with true by reflexivity.
    rewrite IH by (cbn in Hfuel; lia). reflexivity.
Qed.

(** No record is lost, doubled or out of order.  Start with an empty pending
    buffer and let [Log] be called for a number of messages at levels without
    a formatter; then the buffer, read record after record, holds one record
    for each message, in the order of the calls, each with the nine fields of
    its message. *)
Theorem pending_buffer_read_back ec st (msgs : list LogMessage) :
  m_pending st = [] ->
  Forall (fun msg => m_levelFormats st !! level msg = None) msgs ->
  read_buffer (length msgs) (m_pending (log_all ec st msgs))
  = Some (List.map (fields ec st) msgs).
Proof.
  intros Hp Hf. rewrite log_all_pending by exact Hf. rewrite Hp.
  cbn [app]. now apply read_buffer_records.
Qed.

Lemma pending_buffer_read_back_witness :
  read_buffer 2
    (m_pending
       (log_all Sample.codes Logger.init
          [ make_message Sample.env 1 0 "a,b" Sample.location [] 3;
            make_message Sample.env 2 (-6) "c;d" Sample.location "X" 3 ]))
  = Some [ [ "1"; "DEBUG"; "0"; []; "a.cpp:f:10"; "1234"; "at f"; []; "a,b" ];
           [ "2"; "WARNING"; "-6"; "A timeout has been exceeded";
             "a.cpp:f:10"; "1234"; "at f"; "X"; "c;d" ] ].
Proof.
  apply (pending_buffer_read_back Sample.codes Logger.init
           [ make_message Sample.env 1 0 "a,b" Sample.location [] 3;
             make_message Sample.env 2 (-6) "c;d" Sample.location "X" 3 ]).
  - reflexivity.
  - repeat constructor.
Defined.

End BufferReadBack.

(** ** The set of listeners *)

Section ListenerSet.

Import Listeners.

Implicit Types (l : list Z) (w v : Z).

Lemma set_insert_elem w v l : v ∈ set_insert w l <-> v = w \/ v ∈ l.
Proof.
  induction l as [|u l IH]; cbn [set_insert].
  - rewrite list_elem_of_singleton, elem_of_nil. tauto.
  - destruct (Z.ltb_spec w u); [rewrite !elem_of_cons; tauto|].
    destruct (Z.eqb_spec w u) as [->|]; [rewrite !elem_of_cons; tauto|].
    rewrite !elem_of_cons, IH. tauto.
Qed.

Lemma set_erase_subset w v l : v ∈ set_erase w l -> v ∈ l.
Proof.
  induction l as [|u l IH]; cbn [set_erase]; [auto|].
  destruct (Z.eqb_spec w u); rewrite !elem_of_cons; tauto.
Qed.

Lemma set_insert_ordered w l : ordered l -> ordered (set_insert w l).
Proof.
  unfold ordered. induction 1 as [|u l Hl IH Hu]; cbn [set_insert].
  - repeat constructor.
  - destruct (Z.ltb_spec w u).
    + constructor; [now constructor|]. constructor; [lia|].
      eapply Forall_impl; [exact Hu|]. cbn. lia.
    + destruct (Z.eqb_spec w u); [now constructor|].
      constructor; [exact IH|]. apply Forall_forall. intros v Hv.
      apply set_insert_elem in Hv as [->|Hv]; [lia|].
      rewrite Forall_forall in Hu. now apply Hu.
Qed.

Lemma set_erase_ordered w l : ordered l -> ordered (set_erase w l).
Proof.
  unfold ordered. induction 1 as [|u l Hl IH Hu]; cbn [set_erase].
  - constructor.
  - destruct (Z.eqb_spec w u); [exact Hl|].
    constructor; [exact IH|]. apply Forall_forall. intros v Hv.
    rewrite Forall_forall in Hu. apply Hu.
    eapply set_erase_subset. exact Hv.
Qed.

Lemma set_erase_filter w l :
  ordered l -> set_erase w l = List.filter (fun v => negb (v =? w)) l.
Proof.
  unfold ordered. induction 1 as [|u l Hl IH Hu]; cbn [set_erase List.filter].
  - reflexivity.
  - destruct (Z.eqb_spec w u) as [->|Hne].
    + rewrite Z.eqb_refl. cbn [negb]. symmetry.
      rewrite <- (List.filter_ext_in (fun _ => true)).
      * clear. induction l; cbn; congruence.
      * intros v Hv. rewrite Forall_forall in Hu.
        rewrite <- list_elem_of_In in Hv. specialize (Hu v Hv).
        symmetry. apply negb_true_iff, Z.eqb_neq. lia.
    + destruct (Z.eqb_spec u w); [congruence|]. cbn [negb]. now rewrite IH.
Qed.

Lemma set_insert_twice w l : set_insert w (set_insert w l) = set_insert w l.
Proof.
  induction l as [|u l IH]; cbn [set_insert].
  - now rewrite Z.ltb_irrefl, Z.eqb_refl.
  - destruct (Z.ltb_spec w u) as [Hlt|Hge]; cbn [set_insert].
    + now rewrite Z.ltb_irrefl, Z.eqb_refl.
    + destruct (Z.eqb_spec w u) as [->|Hne]; cbn [set_insert].
      * now rewrite Z.ltb_irrefl, Z.eqb_refl.
      * destruct (Z.ltb_spec w u); [lia|].
        destruct (Z.eqb_spec w u); [congruence|]. now rewrite IH.
Qed.

Lemma set_erase_insert w l :
  ordered l -> w ∉ l -> set_erase w (set_insert w l) = l.
Proof.
  unfold ordered. induction 1 as [|u l Hl IH Hu]; intros Hw;
    cbn [set_insert set_erase].
  - now rewrite Z.eqb_refl.
  - apply not_elem_of_cons in Hw as [Hne Hw].
    destruct (Z.ltb_spec w u); cbn [set_erase].
    + now rewrite Z.eqb_refl.
    + destruct (Z.eqb_spec w u); [congruence|]. cbn [set_erase].
      destruct (Z.eqb_spec w u); [congruence|]. now rewrite IH.
Qed.

(** [AddListener] and [RemoveListener] treat the listeners as a set.  After
    [AddListener] the listeners are the ones before and the new one, still in
    order; adding a listener twice is adding it once; after [RemoveListener]
    the listener is gone and the others remain; and removing a listener that
    was added, and was not there before, gives the set back. *)
Theorem AddListener_RemoveListener (sys : Listeners.t) (w : Z) :
  ordered (m_listeners sys) ->
  ordered (m_listeners (AddListener sys w))
  /\ ordered (m_listeners (RemoveListener sys w))
  /\ (forall v, v ∈ m_listeners (AddListener sys w)
                <-> v = w \/ v ∈ m_listeners sys)
  /\ (forall v, v ∈ m_listeners (RemoveListener sys w)
                <-> v <> w /\ v ∈ m_listeners sys)
  /\ AddListener (AddListener sys w) w = AddListener sys w
  /\ (w ∉ m_listeners sys -> RemoveListener (AddListener sys w) w = sys).
Proof.
  intros Ho. cbn [AddListener RemoveListener m_listeners logger streams].
  split; [now apply set_insert_ordered|].
  split; [now apply set_erase_ordered|].
  split; [intros v; apply set_insert_elem|]. split; [|split].
  - intros v. rewrite set_erase_filter by exact Ho.
    rewrite list_elem_of_In, List.filter_In, <- list_elem_of_In.
    rewrite negb_true_iff, Z.eqb_neq. tauto.
  - unfold AddListener. cbn. now rewrite set_insert_twice.
  - intros Hw. unfold RemoveListener, AddListener. cbn.
    rewrite set_erase_insert by assumption. now destruct sys.
Qed.

Lemma AddListener_RemoveListener_witness :
  m_listeners (AddListener SampleListeners.sys 24) = [16; 24; 32]
  /\ RemoveListener (AddListener SampleListeners.sys 24) 24
     = SampleListeners.sys.
Proof.
  split; [reflexivity|].
  apply (AddListener_RemoveListener SampleListeners.sys 24).
  - repeat constructor.
  - apply (bool_decide_unpack _). vm_compute. exact I.
Defined.

End ListenerSet.

(** ** The stream writer *)

Section StreamWriter.

Import Logger Listeners.

Variables (env : Z -> Logger.Env) (here : LogLocation.t) (ec : ErrorCodes.t).

Implicit Types (sys : Listeners.t) (ws l : list Z) (w v : Z).

Lemma visit_streams pending sys w v :
  streams (visit env here ec pending sys w) !! v
  = if decide (v = w) then (fun c => c ++ pending) <$> streams sys !! v
    else streams sys !! v.
Proof.
  unfold visit. destruct (streams sys !! w) eqn:E; cbn [streams].
  - rewrite lookup_insert. destruct (decide (w = v)) as [<-|];
      destruct (decide _); try congruence. now rewrite E.
  - destruct (decide (v = w)) as [->|]; [now rewrite E | reflexivity].
Qed.

Lemma visit_live pending sys w v :
  bool_decide (is_Some (streams (visit env here ec pending sys w) !! v))
  = bool_decide (is_Some (streams sys !! v)).
Proof.
  rewrite visit_streams. destruct (decide (v = w)); [|reflexivity].
  apply bool_decide_ext. now rewrite fmap_is_Some.
Qed.

Lemma fold_visit_streams pending ws :
  forall sys v,
    NoDup ws ->
    streams (fold_left (visit env here ec pending) ws sys) !! v
    = if bool_decide (v ∈ ws)
      then (fun c => c ++ pending) <$> streams sys !! v
      else streams sys !! v.
Proof.
  induction ws as [|w ws IH]; intros sys v Hnd.
  - reflexivity.
  - apply NoDup_cons in Hnd as [Hw Hnd]. cbn [fold_left].
    rewrite IH by exact Hnd. rewrite visit_streams.
    destruct (decide (v = w)) as [->|Hne].
    + rewrite (bool_decide_eq_false_2 _ Hw).
      rewrite bool_decide_eq_true_2; [reflexivity | left].
    + destruct (bool_decide (v ∈ ws)) eqn:E.
      * apply bool_decide_eq_true in E.
        rewrite bool_decide_eq_true_2; [reflexivity | now right].
      * apply bool_decide_eq_false in E.
        rewrite bool_decide_eq_false_2; [reflexivity|].
        rewrite elem_of_cons. tauto.
Qed.

Lemma ordered_NoDup l : ordered l -> NoDup l.
Proof.
  unfold ordered. induction 1 as [|u l Hl IH Hu]; constructor; [|exact IH].
  intros Hin. rewrite Forall_forall in Hu. specialize (Hu u Hin). lia.
Qed.

Lemma filter_filter (p q : Z -> bool) l :
  List.filter p (List.filter q l) = List.filter (fun v => p v && q v) l.
Proof.
  induction l as [|u l IH]; [reflexivity|]. cbn [List.filter].
  destruct (q u); cbn [List.filter]; rewrite ?IH, ?andb_false_r, ?andb_true_r;
    reflexivity.
Qed.

Lemma erase_all (p : Z -> bool) ws :
  forall l,
    ordered l ->
    fold_left (fun l w => if p w then l else set_erase w l) ws l
    = List.filter (fun v => p v || negb (existsb (Z.eqb v) ws)) l.
Proof.
  induction ws as [|w ws IH]; intros l Ho; cbn [fold_left existsb].
  - rewrite <- (List.filter_ext (fun _ => true)).
    + clear. induction l; cbn; congruence.
    + intros v. now rewrite orb_true_r.
  - destruct (p w) eqn:Hp.
    + rewrite IH by exact Ho. apply List.filter_ext. intros v.
      destruct (Z.eqb_spec v w) as [->|]; [now rewrite Hp | reflexivity].
    + rewrite IH by (now apply set_erase_ordered).
      rewrite set_erase_filter by exact Ho. rewrite filter_filter.
      apply List.filter_ext. intros v.
      destruct (Z.eqb_spec v w) as [->|]; cbn [negb orb andb].
      * now rewrite Hp, andb_false_r.
      * now rewrite andb_true_r.
Qed.

Lemma fold_visit_listeners pending ws :
  forall sys,
    m_listeners (fold_left (visit env here ec pending) ws sys)
    = fold_left
        (fun l w => if bool_decide (is_Some (streams sys !! w)) then l
                    else set_erase w l)
        ws (m_listeners sys).
Proof.
  induction ws as [|w ws IH]; intros sys; [reflexivity|].
  cbn [fold_left]. rewrite IH.
  assert (Hl : m_listeners (visit env here ec pending sys w)
               = if bool_decide (is_Some (streams sys !! w))
                 then m_listeners sys else set_erase w (m_listeners sys)).
  { unfold visit. destruct (streams sys !! w) eqn:E; cbn [m_listeners].
    - rewrite bool_decide_eq_true_2; [reflexivity | eauto].
    - rewrite bool_decide_eq_false_2; [reflexivity|]. now intros [? ?]. }
  rewrite Hl. generalize (if bool_decide (is_Some (streams sys !! w))
                          then m_listeners sys
                          else set_erase w (m_listeners sys)).
  clear Hl IH. induction ws as [|u ws IH]; intros l; [reflexivity|].
  cbn [fold_left]. rewrite visit_live. apply IH.
Qed.

Lemma fold_visit_pending_alive pending ws :
  forall sys,
    expired sys ws = [] ->
    m_pending (logger (fold_left (visit env here ec pending) ws sys))
    = m_pending (logger sys).
Proof.
  induction ws as [|w ws IH]; intros sys He; [reflexivity|].
  cbn [fold_left]. unfold expired in He. cbn [List.filter] in He.
  destruct (bool_decide (is_Some (streams sys !! w))) eqn:E;
    cbn [negb] in He; [|discriminate].
  rewrite IH.
  - unfold visit. apply bool_decide_eq_true in E as [c E]. now rewrite E.
  - unfold expired. rewrite <- He. apply List.filter_ext. intros v.
    now rewrite visit_live.
Qed.

Lemma fold_visit_pending pending ws :
  forall sys,
    m_levelFormats (logger sys) !! kWARNING = None ->
    m_pending (logger (fold_left (visit env here ec pending) ws sys))
    = m_pending (logger sys)
      ++ concat (List.map
                   (fun w => parseable_record ec (logger sys)
                               (stale_message env here w))
                   (expired sys ws)).
Proof.
  induction ws as [|w ws IH]; intros sys Hf.
  - cbn. now rewrite app_nil_r.
  - cbn [fold_left]. unfold expired. cbn [List.filter].
    assert (Hexp : forall p,
               List.filter
                 (fun v => negb (bool_decide
                    (is_Some (streams (visit env here ec p sys w) !! v)))) ws
               = List.filter
                   (fun v => negb (bool_decide (is_Some (streams sys !! v)))) ws).
    { intros p. apply List.filter_ext. intros v. now rewrite visit_live. }
    destruct (streams sys !! w) as [c|] eqn:E.
    + rewrite bool_decide_eq_true_2 by eauto. cbn [negb].
      rewrite IH.
      * unfold expired. rewrite Hexp. unfold visit. rewrite E.
        cbn [logger m_pending set_cout]. f_equal.
      * unfold visit. rewrite E. exact Hf.
    + rewrite bool_decide_eq_false_2 by (now intros [? ?]). cbn [negb].
      rewrite IH.
      * unfold expired. rewrite Hexp. unfold visit. rewrite E. cbn [logger].
        unfold Log_code. fold (stale_message env here w).
        cbn [List.map concat]. rewrite dispatch_eq at 1. cbn [m_pending].
        unfold buffer_entry. cbn [m_levelFormats set_cout].
        replace (level (stale_message env here w)) with kWARNING by reflexivity.
        rewrite Hf. rewrite <- app_assoc. f_equal. f_equal.
        f_equal. apply List.map_ext. intros v. apply parseable_record_ext.
        rewrite level_name_dispatch. reflexivity.
      * unfold visit. rewrite E. cbn [logger]. unfold Log_code.
        rewrite dispatch_eq. exact Hf.
Qed.

End StreamWriter.

Section StreamWriterTheorems.

Import Logger Listeners.

Implicit Types (sys : Listeners.t) (ec : ErrorCodes.t).

Lemma erase_all_ordered (p : Z -> bool) ws :
  forall l,
    ordered l ->
    ordered (fold_left (fun l w => if p w then l else set_erase w l) ws l).
Proof.
  induction ws as [|w ws IH]; intros l Ho; [exact Ho|].
  cbn [fold_left]. apply IH. destruct (p w); [exact Ho|].
  now apply set_erase_ordered.
Qed.

Lemma existsb_eqb_elem v (l : list Z) : v ∈ l -> existsb (Z.eqb v) l = true.
Proof.
  intros H. apply existsb_exists. exists v. split; [|apply Z.eqb_refl].
  now apply list_elem_of_In.
Qed.

Lemma Log_is_dispatch (env : Env) ec (st : Logger.t) level codename details
    location originator :
  exists code,
    Logger.Log env ec st level codename details location originator
    = dispatch ec st
        (make_message env level code details location originator 3).
Proof.
  unfold Logger.Log, Log_code.
  destruct codename as [s|]; [destruct (negb _)|]; eauto.
Qed.

Lemma RunStream_pass_streams
    (env : Z -> Env) (here : LogLocation.t) ec sys (v : Z) :
  ordered (m_listeners sys) ->
  streams (RunStream_pass env here ec sys) !! v
  = if bool_decide (v ∈ m_listeners sys)
    then (fun written => written ++ m_pending (logger sys))
           <$> streams sys !! v
    else streams sys !! v.
Proof.
  intros Ho. unfold RunStream_pass.
  destruct (Nat.eqb_spec (length (m_pending (logger sys))) 0) as [E|E].
  - apply length_zero_iff_nil in E. rewrite E.
    destruct (bool_decide _); [|reflexivity].
    destruct (streams sys !! v); cbn; [now rewrite app_nil_r | reflexivity].
  - cbn [m_listeners]. rewrite fold_visit_streams by (now apply ordered_NoDup).
    reflexivity.
Qed.

(** One pass of the stream writer gives every listener that still has a
    stream the pending text, once, after what the stream held; a stream that
    is no listener's is not written to. *)
Theorem RunStream_pass_delivers
    (env : Z -> Env) (here : LogLocation.t) ec sys (v : Z) :
  ordered (m_listeners sys) ->
  streams (RunStream_pass env here ec sys) !! v
  = if bool_decide (v ∈ m_listeners sys)
    then (fun written => written ++ m_pending (logger sys))
           <$> streams sys !! v
    else streams sys !! v.
Proof.
  apply RunStream_pass_streams.
Qed.

Lemma RunStream_pass_delivers_witness :
  streams (RunStream_pass SampleListeners.env SampleListeners.here
             Sample.codes SampleListeners.sys) !! 16
  = Some ("old1,DEBUG,0,,a.cpp:f:10,1234,at f,,x;" ++ [newline]).
Proof.
  rewrite (RunStream_pass_delivers SampleListeners.env SampleListeners.here
             Sample.codes SampleListeners.sys 16).
  - reflexivity.
  - repeat constructor.
Defined.

(** A pass that finds text pending removes the expired listeners, and only
    them, from the set.  For each of them it logs one warning, so the pending
    buffer, emptied for the pass, holds after the pass one record for each
    expired listener, in the order of the set (the parseable record, when no
    formatter is registered for [kWARNING]). *)
Theorem RunStream_pass_evicts
    (env : Z -> Env) (here : LogLocation.t) ec sys :
  ordered (m_listeners sys) ->
  m_pending (logger sys) <> [] ->
  m_levelFormats (logger sys) !! kWARNING = None ->
  let sys' := RunStream_pass env here ec sys in
  m_listeners sys' = alive sys (m_listeners sys)
  /\ ordered (m_listeners sys')
  /\ m_pending (logger sys')
     = concat
         (List.map
            (fun w => fst (FormatParseable ec (logger sys)
                             (stale_message env here w)))
            (expired sys (m_listeners sys))).
Proof.
  intros Ho Hp Hf sys'. subst sys'. unfold RunStream_pass.
  destruct (Nat.eqb_spec (length (m_pending (logger sys))) 0) as [E|E].
  { apply length_zero_iff_nil in E. contradiction. }
  cbn [m_listeners]. rewrite fold_visit_listeners. cbn [m_listeners streams].
  split; [|split].
  - rewrite erase_all by exact Ho. unfold alive.
    apply List.filter_ext_in. intros v Hv.
    rewrite existsb_eqb_elem by (now apply list_elem_of_In).
    now rewrite orb_false_r.
  - now apply erase_all_ordered.
  - rewrite fold_visit_pending by exact Hf.
    cbn [logger m_pending set_pending app]. unfold expired. cbn [streams].
    apply f_equal. apply List.map_ext. intros w.
    rewrite FormatParseable_fst. now apply parseable_record_ext.
Qed.

Lemma RunStream_pass_evicts_witness :
  m_listeners (RunStream_pass SampleListeners.env SampleListeners.here
                 Sample.codes SampleListeners.sys) = [16]
  /\ m_pending
       (logger (RunStream_pass SampleListeners.env SampleListeners.here
                  Sample.codes SampleListeners.sys))
     = "2,WARNING,0,,Logger.cpp:static void Logger::RunStream():181,1234,at f,,Deleting log listener from listener list.;"
       ++ [newline].
Proof.
  destruct (RunStream_pass_evicts SampleListeners.env SampleListeners.here
              Sample.codes SampleListeners.sys) as (Hl & _ & Hp).
  - repeat constructor.
  - discriminate.
  - reflexivity.
  - rewrite Hl, Hp. split; reflexivity.
Defined.

(** A wake with nothing to do.  When nothing is pending, a pass changes
    nothing at all: it writes to no stream and removes no listener, expired
    or not.  And when no listener has expired, a pass leaves nothing pending,
    so a second pass right after it changes nothing. *)
Theorem RunStream_pass_idle
    (env : Z -> Env) (here : LogLocation.t) ec sys :
  (m_pending (logger sys) = [] -> RunStream_pass env here ec sys = sys)
  /\ (expired sys (m_listeners sys) = [] ->
      RunStream_pass env here ec (RunStream_pass env here ec sys)
      = RunStream_pass env here ec sys).
Proof.
  assert (Hidle : forall s, m_pending (logger s) = [] ->
                            RunStream_pass env here ec s = s).
  { intros s Hs. unfold RunStream_pass. now rewrite Hs. }
  split; [apply Hidle|]. intros He. apply Hidle.
  unfold RunStream_pass.
  destruct (Nat.eqb_spec (length (m_pending (logger sys))) 0) as [E|E].
  - now apply length_zero_iff_nil.
  - cbn [m_listeners]. now rewrite fold_visit_pending_alive.
Qed.

Lemma RunStream_pass_idle_witness :
  let sys := RemoveListener SampleListeners.sys 32 in
  RunStream_pass SampleListeners.env SampleListeners.here Sample.codes
    (RunStream_pass SampleListeners.env SampleListeners.here Sample.codes sys)
  = RunStream_pass SampleListeners.env SampleListeners.here Sample.codes sys.
Proof.
  apply (RunStream_pass_idle SampleListeners.env SampleListeners.here
           Sample.codes (RemoveListener SampleListeners.sys 32)).
  reflexivity.
Defined.

(** From producer to listener.  What a call of [Log] adds to the pending
    buffer is, after the next pass, at the end of every stream that is a
    listener's, behind what the stream held and what was pending before the
    call. *)
Theorem Log_reaches_listeners
    (env : Z -> Env) (here : LogLocation.t) ec sys (e : Env) (level : Z)
    (codename : char_ptr) (details : Str.t) (location : LogLocation.t)
    (originator : Str.t) (v : Z) (written : Str.t) :
  ordered (m_listeners sys) ->
  v ∈ m_listeners sys ->
  streams sys !! v = Some written ->
  exists code,
    let msg := make_message e level code details location originator 3 in
    streams
      (RunStream_pass env here ec
         (Listeners.Log e ec sys level codename details location originator))
      !! v
    = Some (written ++ m_pending (logger sys)
            ++ match m_levelFormats (logger sys) !! level with
               | Some formatter => formatter msg
               | None => fst (FormatParseable ec (logger sys) msg)
               end).
Proof.
  intros Ho Hv Hw.
  destruct (Log_is_dispatch e ec (logger sys) level codename details location
              originator) as [code Hd].
  exists code. cbv zeta.
  rewrite RunStream_pass_streams by exact Ho.
  cbn [Listeners.Log m_listeners streams logger].
  rewrite bool_decide_eq_true_2 by exact Hv. rewrite Hw. cbn [fmap option_fmap option_map].
  rewrite Hd, dispatch_eq. cbn [m_pending]. unfold buffer_entry.
  cbn [Logger.level make_message]. now rewrite FormatParseable_fst.
Qed.

Lemma Log_reaches_listeners_witness :
  exists code,
    streams
      (RunStream_pass SampleListeners.env SampleListeners.here Sample.codes
         (Listeners.Log Sample.env Sample.codes SampleListeners.sys 1
            (Some (Sample.name "Timeout")) "y" Sample.location []))
      !! 16
    = Some ("old"
            ++ m_pending (logger SampleListeners.sys)
            ++ fst (FormatParseable Sample.codes (logger SampleListeners.sys)
                      (make_message Sample.env 1 code "y" Sample.location [] 3))).
Proof.
  destruct (Log_reaches_listeners SampleListeners.env SampleListeners.here
              Sample.codes SampleListeners.sys Sample.env 1
              (Some (Sample.name "Timeout")) "y" Sample.location [] 16 "old")
    as [code H].
  - repeat constructor.
  - apply (bool_decide_unpack _). vm_compute. exact I.
  - reflexivity.
  - exists code. exact H.
Defined.

End StreamWriterTheorems.

(** ** Formatters with state *)

Section StatefulFacts.

Import Stateful.

Context {S : Type}.

Implicit Types (st : Stateful.t S) (ec : ErrorCodes.t) (msg : Logger.LogMessage).

Lemma Stateful_FormatParseable_eq ec st msg :
  FormatParseable ec st msg
  = (Logger.join
       (List.map escape_component
          (Logger.components ec
             (fst (Logger.map_index (m_levels st) (Logger.level msg))) msg))
     ++ [semicolon; newline],
     set_levels S st (snd (Logger.map_index (m_levels st) (Logger.level msg)))).
Proof.
  unfold FormatParseable.
  destruct (Logger.map_index (m_levels st) (Logger.level msg)) as [name lv].
  cbn [fst snd]. now rewrite accumulate_join by discriminate.
Qed.

Lemma Stateful_FormatDefault_eq st msg :
  FormatDefault st msg
  = (Logger.default_line
       (fst (Logger.map_index (m_levels st) (Logger.level msg))) msg,
     set_levels S st (snd (Logger.map_index (m_levels st) (Logger.level msg)))).
Proof.
  unfold FormatDefault.
  now destruct (Logger.map_index (m_levels st) (Logger.level msg)).
Qed.

(** [Log] in one piece, the state of the callables included. *)
Lemma Stateful_dispatch_eq ec st msg :
  dispatch ec st msg
  = {| m_levels :=
         match m_levelFormats st !! Logger.level msg with
         | Some _ => m_levels st
         | None => snd (Logger.map_index (m_levels st) (Logger.level msg))
         end;
       m_levelFormats := m_levelFormats st;
       m_usestdout := m_usestdout st;
       m_useNI := m_useNI st;
       m_pending :=
         m_pending st
         ++ match m_levelFormats st !! Logger.level msg with
            | Some f => fst (f msg (after_console st msg))
            | None => fst (FormatParseable ec st msg)
            end;
       cout :=
         if negb (Logger.is_NILevel (Logger.level msg)) && m_usestdout st
         then cout st
              ++ match m_levelFormats st !! Logger.level msg with
                 | Some f => fst (f msg (captured st))
                 | None => fst (FormatDefault st msg)
                 end
         else cout st;
       HAL_sent :=
         if Logger.is_NILevel (Logger.level msg) && m_useNI st
         then HAL_sent st ++ [Logger.HAL_call msg] else HAL_sent st;
       captured :=
         match m_levelFormats st !! Logger.level msg with
         | Some f => snd (f msg (after_console st msg))
         | None => captured st
         end |}.
Proof.
  unfold dispatch, ProcessCommon, ProcessLog, ProcessNILog, call_formatter,
    after_console.
  fold (Logger.is_NILevel (Logger.level msg)). cbn [length Nat.eqb].
  rewrite !Stateful_FormatParseable_eq, !Stateful_FormatDefault_eq.
  destruct st as [lv fm so ni pend out hal s];
    cbn [m_levels m_levelFormats m_usestdout m_useNI m_pending cout HAL_sent
           captured].
  destruct (Logger.is_NILevel (Logger.level msg)), ni, so; cbn [negb andb];
    cbn [set_HAL_sent set_cout set_levels set_pending set_captured m_levels
           m_levelFormats m_usestdout m_useNI m_pending cout HAL_sent captured];
    destruct (fm !! Logger.level msg) as [f|] eqn:F;
    rewrite ?Stateful_FormatParseable_eq;
    cbn [set_HAL_sent set_cout set_levels set_pending set_captured m_levels
           m_levelFormats m_usestdout m_useNI m_pending cout HAL_sent captured
           fst snd];
    rewrite ?F;
    try (destruct (f msg s) as [t1 s1] eqn:E1; cbn [fst snd];
         cbn [set_HAL_sent set_cout set_levels set_pending set_captured m_levels
                m_levelFormats m_usestdout m_useNI m_pending cout HAL_sent
                captured]; rewrite ?F);
    try (destruct (f msg s1) as [t2 s2] eqn:E2; cbn [fst snd]);
    rewrite ?Stateful_FormatParseable_eq;
    cbn [set_HAL_sent set_cout set_levels set_pending set_captured m_levels
           m_levelFormats m_usestdout m_useNI m_pending cout HAL_sent captured
           fst snd];
    rewrite ?map_index_idem; cbn [fst snd];
    try reflexivity.
Qed.

Lemma Stateful_dispatch_agree ec st1 st2 msg :
  agree st1 st2 -> formats_text_only st1 ->
  agree (dispatch ec st1 msg) (dispatch ec st2 msg).
Proof.
  intros (Hl & Hf & Hn & Hp & Hh) Ht. rewrite !Stateful_dispatch_eq.
  unfold agree.
  cbn [m_levels m_levelFormats m_useNI m_pending HAL_sent].
  rewrite !Stateful_FormatParseable_eq. cbn [fst].
  rewrite <- Hl, <- Hf, <- Hn, <- Hp, <- Hh.
  repeat split; try reflexivity.
  f_equal. destruct (m_levelFormats st1 !! Logger.level msg) as [f|] eqn:F;
    [|reflexivity].
  apply (Ht _ _ F).
Qed.

Lemma Stateful_dispatch_formats ec st msg :
  m_levelFormats (dispatch ec st msg) = m_levelFormats st.
Proof. now rewrite Stateful_dispatch_eq. Qed.

Lemma Stateful_Log_is_dispatch (env : Logger.Env) ec st level codename
    details location originator :
  exists code,
    Log env ec st level codename details location originator
    = dispatch ec st
        (Logger.make_message env level code details location originator 3).
Proof.
  unfold Log, Log_code.
  destruct codename as [s|]; [destruct (negb _)|]; eauto.
Qed.

Lemma Stateful_step_agree (c : call S) ec st1 st2 :
  brings_text_only c ->
  agree st1 st2 -> formats_text_only st1 ->
  fst (step (ec, st1) c) = fst (step (ec, st2) c)
  /\ agree (snd (step (ec, st1) c)) (snd (step (ec, st2) c))
  /\ formats_text_only (snd (step (ec, st1) c)).
Proof.
  intros Hc Ha Ht. destruct c; cbn [step fst snd]; (split; [reflexivity|]).
  - unfold Log, Log_code.
    destruct codename as [s|]; [destruct (negb _)|];
      (split; [now apply Stateful_dispatch_agree|]);
      unfold formats_text_only; now rewrite Stateful_dispatch_formats.
  - unfold Log_code. split; [now apply Stateful_dispatch_agree|].
    unfold formats_text_only. now rewrite Stateful_dispatch_formats.
  - destruct Ha as (Hl & Hf & Hn & Hp & Hh). split; [|exact Ht].
    unfold agree, AddLevel. cbn. now rewrite Hl.
  - destruct Ha as (Hl & Hf & Hn & Hp & Hh). split.
    + unfold agree. cbn. now rewrite Hf.
    + intros l f. cbn [AddFormatter m_levelFormats]. rewrite lookup_insert.
      destruct (decide (level = l)); [intros [= <-]; exact Hc | apply Ht].
  - destruct Ha as (Hl & Hf & Hn & Hp & Hh). split; [|exact Ht].
    unfold agree. now cbn.
  - split; [exact Ha | exact Ht].
Qed.

Lemma Stateful_run_agree (calls : list (call S)) ec st1 st2 :
  Forall brings_text_only calls ->
  agree st1 st2 -> formats_text_only st1 ->
  agree (snd (run calls (ec, st1))) (snd (run calls (ec, st2))).
Proof.
  revert ec st1 st2.
  induction calls as [|c calls IH]; intros ec st1 st2 Hc Ha Ht; [exact Ha|].
  apply Forall_cons in Hc as [Hc Hcs]. unfold run in *. cbn [fold_left].
  destruct (Stateful_step_agree c ec st1 st2 Hc Ha Ht) as (He & Ha' & Ht').
  destruct (step (ec, st1) c) as [ec1 st1'], (step (ec, st2) c) as [ec2 st2'].
  cbn [fst snd] in *. subst ec2. now apply IH.
Qed.

Lemma Stateful_step_stdout_off (c : call S) ec st :
  m_usestdout st = false ->
  m_usestdout (snd (step (ec, st) c)) = false
  /\ cout (snd (step (ec, st) c)) = cout st.
Proof.
  intros H. destruct c; cbn [step fst snd]; try (now split).
  - unfold Log, Log_code. destruct codename as [s|]; [destruct (negb _)|];
      rewrite Stateful_dispatch_eq; cbn [m_usestdout cout]; rewrite H;
      now rewrite andb_false_r.
  - unfold Log_code. rewrite Stateful_dispatch_eq. cbn [m_usestdout cout].
    rewrite H. now rewrite andb_false_r.
Qed.

Lemma Stateful_run_stdout_off (calls : list (call S)) ec st :
  m_usestdout st = false ->
  cout (snd (run calls (ec, st))) = cout st.
Proof.
  revert ec st. induction calls as [|c calls IH]; intros ec st H; [reflexivity|].
  unfold run in *. cbn [fold_left].
  destruct (Stateful_step_stdout_off c ec st H) as [Hu Hc].
  destruct (step (ec, st) c) as [ec' st']. cbn [snd] in *.
  now rewrite IH.
Qed.

(** The logger of [Logger] is the logger of this module for callables
    without state: [Log] on the lifted logger is the lifted [Log]. *)
Lemma lift_dispatch ec (lg : Logger.t) (s : S) msg :
  dispatch ec (lift lg s) msg = lift (Logger.dispatch ec lg msg) s.
Proof.
  rewrite Stateful_dispatch_eq, dispatch_eq.
  rewrite Stateful_FormatParseable_eq, Stateful_FormatDefault_eq.
  unfold after_console.
  assert (Hlk : m_levelFormats (lift lg s) !! Logger.level msg
                = (fun (f : Logger.LogMessage -> Str.t) msg s => (f msg, s))
                    <$> Logger.m_levelFormats lg !! Logger.level msg)
    by apply lookup_fmap.
  rewrite !Hlk. clear Hlk.
  unfold Logger.levels_after, Logger.buffer_entry, Logger.console_entry,
    Logger.parseable_record, Logger.fields.
  destruct (Logger.m_levelFormats lg !! Logger.level msg) as [f|] eqn:F;
    cbn [fmap option_fmap option_map fst snd];
    unfold lift;
    cbn [Logger.m_levels Logger.m_levelFormats Logger.m_usestdout
           Logger.m_useNI Logger.m_pending Logger.cout Logger.HAL_sent
           m_levels m_levelFormats m_usestdout m_useNI m_pending cout
           HAL_sent captured fst snd];
    rewrite ?lookup_fmap, ?F; cbn [fmap option_fmap option_map fst snd];
    rewrite ?map_index_fst;
    destruct (_ && Logger.m_usestdout lg); reflexivity.
Qed.

Lemma lift_Log (env : Logger.Env) ec (lg : Logger.t) (s : S) level codename
    details location originator :
  Log env ec (lift lg s) level codename details location originator
  = lift (Logger.Log env ec lg level codename details location originator) s.
Proof.
  unfold Log, Logger.Log, Log_code, Logger.Log_code.
  destruct codename as [c|]; [destruct (negb _)|]; apply lift_dispatch.
Qed.


End StatefulFacts.

Section StatefulScenarios.

Import Stateful.


(** The two buffers of that run, and what the console received. *)
Example numbering_two_runs :
  let st := AddFormatter Stateful.init Logger.kDEBUG numbering in
  let calls := [CallLogCode Sample.env Logger.kDEBUG 0 "x" Sample.location [] 3] in
  let on := snd (run calls (Sample.codes, SetStdoutEnable st true)) in
  let off := snd (run calls (Sample.codes, SetStdoutEnable st false)) in
  m_pending on = "1" ++ [newline]
  /\ cout on = "0" ++ [newline]
  /\ captured on = 2
  /\ m_pending off = "0" ++ [newline]
  /\ cout off = []
  /\ captured off = 1.
Proof. vm_compute. repeat split. Qed.

Lemma counting_text_only : text_only counting.
Proof. intros msg s s'. reflexivity. Qed.


End StatefulScenarios.
